(** * chown.h: the chown-family probes of the runtime security module

    A shallow embedding of [pkg/security/ebpf/c/chown.h].  The header
    defines the entry probes of the seven chown system calls, the exit
    probes (return probes and tracepoints) and the two functions they all
    funnel into, [trace__sys_chown] and [sys_chown_ret].

    Everything the header takes from [syscalls.h] is either a parameter
    of the development (struct layouts, policy lookup, error
    classification, mount classification, context fillers) or, for the
    in-flight syscall cache and the transport, a model written from the
    design document. *)

From Stdlib Require Import ZArith Lia.
From stdpp Require Import gmap list.

Local Open Scope Z_scope.

(** ** C integers *)

(** Conversion of an integer value to [int] (32-bit two's complement),
    as performed by [int retval = PT_REGS_RC(ctx)] and by passing
    [args->ret] for an [int] parameter. *)
Definition to_int (z : Z) : Z := (z + 2 ^ 31) mod 2 ^ 32 - 2 ^ 31.

Definition int_range (z : Z) : Prop := - 2 ^ 31 <= z < 2 ^ 31.

(** ** Event types *)

(** Modelled from the spec: the event-type tag of an in-flight record
    ("tag identifying which syscall family owns this record").  The enum
    lives in a header that is not part of this file; [EVENT_CHOWN] is the
    only member [chown.h] names, the other families are told apart by a
    code. *)
Inductive event_type : Type :=
  | EVENT_CHOWN
  | EVENT_OTHER (code : N).

#[global] Instance event_type_eq_dec : EqDecision event_type.
Proof. solve_decision. Defined.

(** ** Structures declared outside chown.h *)

(** The struct types [chown.h] uses without declaring them, with the
    members it reads: [policy.mode] and [file.path_key.mount_id].  The
    [zero_*] members are the values a C initializer gives to members it
    does not name. *)
Class structs : Type := Structs {
  policy_t : Type;
  mode : policy_t -> Z;
  file_t : Type;
  mount_id : file_t -> Z;
  zero_file : file_t;
  dentry_ptr : Type;
  NULL_dentry : dentry_ptr;
  process_context_t : Type;
  zero_process : process_context_t;
  span_context_t : Type;
  zero_span : span_context_t;
  container_context_t : Type;
  zero_container : container_context_t;
  proc_cache_t : Type;
}.

(** Hook contexts.  Only the member the exit probes read is kept:
    the return register of [struct pt_regs] and the [ret] member of the
    two tracepoint argument blocks. *)
Record pt_regs : Type := { PT_REGS_RC : Z }.
Record tracepoint_syscalls_sys_exit_t : Type := { ret : Z }.
Record tracepoint_raw_syscalls_sys_exit_t : Type := { raw_ret : Z }.

(** The [void *ctx] handed to [sys_chown_ret]: a pointer to one of the
    three hook contexts. *)
Inductive ctx_t : Type :=
  | ctx_regs (regs : pt_regs)
  | ctx_sys_exit (args : tracepoint_syscalls_sys_exit_t)
  | ctx_raw_sys_exit (args : tracepoint_raw_syscalls_sys_exit_t).

Record kevent_t : Type := { async : Z }.
Record syscall_t : Type := { retval : Z }.

Section Data.
Context `{structs}.

(** The [setattr] member of [struct syscall_cache_t], with the members
    [chown.h] touches. *)
Record setattr_t : Type := {
  user : Z;
  group : Z;
  dentry : dentry_ptr;
  file : file_t;
}.

Record syscall_cache_t : Type := {
  type : event_type;
  policy : policy_t;
  setattr : setattr_t;
}.

(** [struct chown_event_t] (lines 6-15). *)
Record chown_event_t : Type := {
  event : kevent_t;
  process : process_context_t;
  span : span_context_t;
  container : container_context_t;
  syscall : syscall_t;
  event_file : file_t;
  uid : Z;
  gid : Z;
}.

(** What a probe does that is visible outside it: the context fillers
    it calls and the events it hands to the transport. *)
Inductive step : Type :=
  | step_fill_process_context
  | step_fill_container_context
  | step_fill_span_context
  | step_send_event (ctx : ctx_t) (ty : event_type) (ev : chown_event_t).

(** The state a probe runs against: the in-flight syscall cache, keyed
    by task id, and the steps performed so far (oldest first). *)
Record world : Type := {
  syscalls : gmap Z syscall_cache_t;
  trace : list step;
}.

(** The events handed to the transport so far. *)
Definition sent_event (s : step) : option chown_event_t :=
  match s with
  | step_send_event _ _ ev => Some ev
  | _ => None
  end.

Definition emitted (w : world) : list chown_event_t :=
  omap sent_event (trace w).

(** Context-enrichment calls performed so far. *)
Definition is_fill (s : step) : bool :=
  match s with
  | step_send_event _ _ _ => false
  | _ => true
  end.

Definition enrichments (w : world) : list step :=
  List.filter is_fill (trace w).
End Data.

(** ** Helpers declared outside chown.h *)

(** The functions and macros [chown.h] calls without defining them and
    whose result the design document leaves to other subsystems.  The
    probes run on behalf of the current task; helpers that look the
    current task up take its id as first argument.  The last two members
    describe the store behind [cache_syscall]: the fixed number of
    records it holds, and, for a full store, which of its records it
    gives up for a new one (the position of that record among the
    records of the store, taken modulo their number). *)
Class helpers `{structs} : Type := Helpers {
  fetch_policy : event_type -> policy_t;
  is_discarded_by_process : Z -> Z -> event_type -> bool;
  IS_UNHANDLED_ERROR : Z -> bool;
  is_pipefs_mount_id : Z -> bool;
  basename_approver : syscall_cache_t -> dentry_ptr -> event_type -> Z;
  fill_process_context :
    Z -> process_context_t -> process_context_t * option proc_cache_t;
  fill_container_context :
    option proc_cache_t -> container_context_t -> container_context_t;
  fill_span_context : Z -> span_context_t -> span_context_t;
  syscalls_capacity : positive;
  eviction_choice : gmap Z syscall_cache_t -> nat;
}.

(** ** The in-flight syscall cache *)

Module CorrelationTable.
Section Table.
Context `{helpers}.

(** Modelled from the spec: whether a push for a task fits the
    "fixed-capacity" table without eviction: the task has a slot
    already ("each task owns its own slot"), or the table holds fewer
    records than its capacity. *)
Definition has_room (task : Z) (table : gmap Z syscall_cache_t) : Prop :=
  is_Some (table !! task) \/
  (size table < Pos.to_nat syscalls_capacity)%nat.

#[global] Instance has_room_dec task table : Decision (has_room task table).
Proof. unfold has_room. apply _. Defined.

(** Modelled from the spec: the task whose record a full table gives up
    ("capacity exhaustion, handled by eviction policy"); none when the
    table is empty. *)
Definition evicted (table : gmap Z syscall_cache_t) : option Z :=
  fst <$>
    map_to_list table
      !! (eviction_choice table `mod` length (map_to_list table))%nat.

(** Modelled from the spec: the table after the eviction. *)
Definition evict (table : gmap Z syscall_cache_t)
    : gmap Z syscall_cache_t :=
  match evicted table with
  | Some task => delete task table
  | None => table
  end.

(** Modelled from the spec: the correlation table behind [cache_syscall]
    and [pop_syscall], which [syscalls.h] defines.  The contract is
    [push(task_id, type, record)] and [pop(task_id, type) -> record|none]
    over a fixed-capacity store keyed by task id with one slot per task,
    each record tagged by its event type.  A push into an occupied slot
    overwrites it; a push for a task without a slot takes a free slot,
    and when the capacity is exhausted it evicts another record and
    takes its place.  The record carries its own tag, so [push] takes
    the tag from it. *)
Definition push (task : Z) (record : syscall_cache_t)
    (table : gmap Z syscall_cache_t) : gmap Z syscall_cache_t :=
  if decide (has_room task table)
  then <[task := record]> table
  else <[task := record]> (evict table).

(** Modelled from the spec: [pop(task_id, type) -> record|none] of the
    same table ("pop = remove-and-return"; with nothing to return the
    pop "is a no-op"). *)
Definition pop (task : Z) (ty : event_type)
    (table : gmap Z syscall_cache_t)
    : option syscall_cache_t * gmap Z syscall_cache_t :=
  match table !! task with
  | Some record =>
      if decide (type record = ty)
      then (Some record, delete task table)
      else (None, table)
  | None => (None, table)
  end.

(** Histories of the table: pushes and pops issued by any tasks, and what
    each pop returned. *)
Inductive op : Type :=
  | Push (task : Z) (record : syscall_cache_t)
  | Pop (task : Z) (ty : event_type).

Definition op_task (o : op) : Z :=
  match o with
  | Push task _ | Pop task _ => task
  end.

Definition is_push_for (task : Z) (o : op) : Prop :=
  match o with
  | Push task' _ => task' = task
  | Pop _ _ => False
  end.

(** The number of pushes of a history. *)
Definition pushes (ops : list op) : nat :=
  length (List.filter (fun o => match o with Push _ _ => true | _ => false end)
            ops).

(** A history that cannot exhaust the capacity of the table it starts
    from: even if every push took a new slot there would be room. *)
Definition fits (ops : list op) (table : gmap Z syscall_cache_t) : Prop :=
  (size table + pushes ops <= Pos.to_nat syscalls_capacity)%nat.

(** The result of a pop, as the task that issued it sees it. *)
Record observation : Type := {
  obs_task : Z;
  obs_type : event_type;
  obs_found : option syscall_cache_t;
}.

Definition apply_op (o : op) (table : gmap Z syscall_cache_t)
    : list observation * gmap Z syscall_cache_t :=
  match o with
  | Push task record => ([], push task record table)
  | Pop task ty =>
      let (found, table') := pop task ty table in
      ([ {| obs_task := task; obs_type := ty; obs_found := found |} ], table')
  end.

Fixpoint run (ops : list op) (table : gmap Z syscall_cache_t)
    : list observation * gmap Z syscall_cache_t :=
  match ops with
  | [] => ([], table)
  | o :: ops' =>
      let (seen, table') := apply_op o table in
      let (seen', table'') := run ops' table' in
      (seen ++ seen', table'')
  end.

(** What one task issued, and what one task saw. *)
Definition ops_of (task : Z) (ops : list op) : list op :=
  filter (fun o => op_task o = task) ops.

Definition seen_by (task : Z) (seen : list observation) : list observation :=
  filter (fun o => obs_task o = task) seen.

End Table.
End CorrelationTable.

(** ** Probes as state transformers *)

Section Probes.
Context `{helpers}.

(** A probe runs on behalf of the current task (what
    [bpf_get_current_pid_tgid] returns) against a [world]. *)
Definition probe (A : Type) : Type := Z -> world -> A * world.

Definition ret_probe {A} (a : A) : probe A := fun _ w => (a, w).

Definition bind_probe {A B} (m : probe A) (k : A -> probe B) : probe B :=
  fun task w => let (a, w') := m task w in k a task w'.

Notation "x <- m ;; k" := (bind_probe m (fun x => k))
  (at level 100, m at next level, right associativity).
Notation "m ;;; k" := (bind_probe m (fun _ => k))
  (at level 100, right associativity).

Definition log_step (s : step) : probe unit :=
  fun _ w => (tt, {| syscalls := syscalls w; trace := trace w ++ [s] |}).

(** Modelled from the spec: [cache_syscall(&syscall)], defined in
    [syscalls.h], is the push of the correlation table "keyed by the
    current task". *)
Definition cache_syscall (record : syscall_cache_t) : probe unit :=
  fun task w =>
    (tt, {| syscalls := CorrelationTable.push task record (syscalls w);
            trace := trace w |}).

(** Modelled from the spec: [pop_syscall(type)], defined in
    [syscalls.h], is the pop of the correlation table "for the current
    task and this event type". *)
Definition pop_syscall (ty : event_type) : probe (option syscall_cache_t) :=
  fun task w =>
    let (found, table) := CorrelationTable.pop task ty (syscalls w) in
    (found, {| syscalls := table; trace := trace w |}).

(** The context fillers write into a member of the event under
    construction; [fill_process_context] also returns the process cache
    entry, which may be missing. *)
Definition set_process (p : process_context_t) (e : chown_event_t)
    : chown_event_t :=
  {| event := event e; process := p; span := span e;
     container := container e; syscall := syscall e;
     event_file := event_file e; uid := uid e; gid := gid e |}.

Definition set_container (c : container_context_t) (e : chown_event_t)
    : chown_event_t :=
  {| event := event e; process := process e; span := span e;
     container := c; syscall := syscall e;
     event_file := event_file e; uid := uid e; gid := gid e |}.

Definition set_span (s : span_context_t) (e : chown_event_t)
    : chown_event_t :=
  {| event := event e; process := process e; span := s;
     container := container e; syscall := syscall e;
     event_file := event_file e; uid := uid e; gid := gid e |}.

Definition call_fill_process_context (e : chown_event_t)
    : probe (chown_event_t * option proc_cache_t) :=
  fun task w =>
    let (p, entry) := fill_process_context task (process e) in
    let (_, w') := log_step step_fill_process_context task w in
    ((set_process p e, entry), w').

Definition call_fill_container_context (entry : option proc_cache_t)
    (e : chown_event_t) : probe chown_event_t :=
  log_step step_fill_container_context ;;;
  ret_probe (set_container (fill_container_context entry (container e)) e).

Definition call_fill_span_context (e : chown_event_t) : probe chown_event_t :=
  fun task w =>
    let (_, w') := log_step step_fill_span_context task w in
    (set_span (fill_span_context task (span e)) e, w').

(** Modelled from the spec: [send_event(channel, event_type,
    event_bytes)], the fire-and-forget hand-over to the transport, which
    [chown.h] uses as a macro defined elsewhere.  The hand-over is
    recorded in the trace with the context, the event type and the event
    as they were passed. *)
Definition send_event (ctx : ctx_t) (ty : event_type) (ev : chown_event_t)
    : probe unit :=
  log_step (step_send_event ctx ty ev).

(** *** Lines 17-19 *)
Definition chown_approvers (syscall : syscall_cache_t) : Z :=
  basename_approver syscall (dentry (setattr syscall)) EVENT_CHOWN.

(** *** Lines 21-39 *)
Definition trace__sys_chown (user group : Z) : probe Z :=
  let policy := fetch_policy EVENT_CHOWN in
  fun task =>
    if is_discarded_by_process task (mode policy) EVENT_CHOWN
    then ret_probe 0 task
    else
      let syscall :=
        {| type := EVENT_CHOWN;
           policy := policy;
           setattr := {| user := user; group := group;
                         dentry := NULL_dentry; file := zero_file |} |} in
      (cache_syscall syscall ;;;
       ret_probe 0) task.

(** *** Lines 41-67: the entry probes *)
Definition kprobe_lchown (filename : Z) (user group : Z) : probe Z :=
  trace__sys_chown user group.

Definition kprobe_fchown (fd : Z) (user group : Z) : probe Z :=
  trace__sys_chown user group.

Definition kprobe_chown (filename : Z) (user group : Z) : probe Z :=
  trace__sys_chown user group.

Definition kprobe_lchown16 (filename : Z) (user group : Z) : probe Z :=
  trace__sys_chown user group.

Definition kprobe_fchown16 (fd : Z) (user group : Z) : probe Z :=
  trace__sys_chown user group.

Definition kprobe_chown16 (filename : Z) (user group : Z) : probe Z :=
  trace__sys_chown user group.

Definition kprobe_fchownat (dirfd : Z) (filename : Z) (user group : Z)
    : probe Z :=
  trace__sys_chown user group.

(** *** Lines 69-100 *)
Definition sys_chown_ret (ctx : ctx_t) (retval : Z) : probe Z :=
  found <- pop_syscall EVENT_CHOWN ;;
  match found with
  | None => ret_probe 0
  | Some syscall =>
      if IS_UNHANDLED_ERROR retval then ret_probe 0
      else if is_pipefs_mount_id (mount_id (file (setattr syscall)))
      then ret_probe 0
      else
        let event :=
          {| syscall := {| retval := retval |};
             event := {| async := 0 |};
             event_file := file (setattr syscall);
             uid := user (setattr syscall);
             gid := group (setattr syscall);
             process := zero_process;
             span := zero_span;
             container := zero_container |} in
        filled <- call_fill_process_context event ;;
        event <- call_fill_container_context (snd filled) (fst filled) ;;
        event <- call_fill_span_context event ;;
        send_event ctx EVENT_CHOWN event ;;;
        ret_probe 0
  end.

(** *** Lines 102-105 *)
Definition kprobe_sys_chown_ret (ctx : pt_regs) : probe Z :=
  let retval := to_int (PT_REGS_RC ctx) in
  sys_chown_ret (ctx_regs ctx) retval.

(** *** Lines 107-173: the exit probes *)
Definition tracepoint_syscalls_sys_exit_lchown
    (args : tracepoint_syscalls_sys_exit_t) : probe Z :=
  sys_chown_ret (ctx_sys_exit args) (to_int (ret args)).

Definition kretprobe_lchown (ctx : pt_regs) : probe Z :=
  kprobe_sys_chown_ret ctx.

Definition tracepoint_syscalls_sys_exit_fchown
    (args : tracepoint_syscalls_sys_exit_t) : probe Z :=
  sys_chown_ret (ctx_sys_exit args) (to_int (ret args)).

Definition kretprobe_fchown (ctx : pt_regs) : probe Z :=
  kprobe_sys_chown_ret ctx.

Definition tracepoint_syscalls_sys_exit_chown
    (args : tracepoint_syscalls_sys_exit_t) : probe Z :=
  sys_chown_ret (ctx_sys_exit args) (to_int (ret args)).

Definition kretprobe_chown (ctx : pt_regs) : probe Z :=
  kprobe_sys_chown_ret ctx.

Definition tracepoint_syscalls_sys_exit_lchown16
    (args : tracepoint_syscalls_sys_exit_t) : probe Z :=
  sys_chown_ret (ctx_sys_exit args) (to_int (ret args)).

Definition kretprobe_lchown16 (ctx : pt_regs) : probe Z :=
  kprobe_sys_chown_ret ctx.

Definition tracepoint_syscalls_sys_exit_fchown16
    (args : tracepoint_syscalls_sys_exit_t) : probe Z :=
  sys_chown_ret (ctx_sys_exit args) (to_int (ret args)).

Definition kretprobe_fchown16 (ctx : pt_regs) : probe Z :=
  kprobe_sys_chown_ret ctx.

Definition tracepoint_syscalls_sys_exit_chown16
    (args : tracepoint_syscalls_sys_exit_t) : probe Z :=
  sys_chown_ret (ctx_sys_exit args) (to_int (ret args)).

Definition kretprobe_chown16 (ctx : pt_regs) : probe Z :=
  kprobe_sys_chown_ret ctx.

Definition tracepoint_syscalls_sys_exit_fchownat
    (args : tracepoint_syscalls_sys_exit_t) : probe Z :=
  sys_chown_ret (ctx_sys_exit args) (to_int (ret args)).

Definition kretprobe_fchownat (ctx : pt_regs) : probe Z :=
  kprobe_sys_chown_ret ctx.

Definition tracepoint_handle_sys_chown_exit
    (args : tracepoint_raw_syscalls_sys_exit_t) : probe Z :=
  sys_chown_ret (ctx_raw_sys_exit args) (to_int (raw_ret args)).

End Probes.

(** ** The probes by syscall variant *)

Inductive chown_variant : Type :=
  | lchown | fchown | chown | lchown16 | fchown16 | chown16 | fchownat.

(** A syscall entry: the variant with the raw arguments of that variant
    ([filename] is a user-space address, [fd] and [dirfd] are
    descriptors). *)
Inductive entry_call : Type :=
  | sys_lchown (filename : Z) (user group : Z)
  | sys_fchown (fd : Z) (user group : Z)
  | sys_chown (filename : Z) (user group : Z)
  | sys_lchown16 (filename : Z) (user group : Z)
  | sys_fchown16 (fd : Z) (user group : Z)
  | sys_chown16 (filename : Z) (user group : Z)
  | sys_fchownat (dirfd : Z) (filename : Z) (user group : Z).

Definition entry_user (c : entry_call) : Z :=
  match c with
  | sys_lchown _ u _ | sys_fchown _ u _ | sys_chown _ u _
  | sys_lchown16 _ u _ | sys_fchown16 _ u _ | sys_chown16 _ u _
  | sys_fchownat _ _ u _ => u
  end.

Definition entry_group (c : entry_call) : Z :=
  match c with
  | sys_lchown _ _ g | sys_fchown _ _ g | sys_chown _ _ g
  | sys_lchown16 _ _ g | sys_fchown16 _ _ g | sys_chown16 _ _ g
  | sys_fchownat _ _ _ g => g
  end.

(** A syscall exit: the trigger form with the hook context it receives. *)
Inductive exit_call : Type :=
  | exit_kretprobe (v : chown_variant) (ctx : pt_regs)
  | exit_tracepoint (v : chown_variant) (args : tracepoint_syscalls_sys_exit_t)
  | exit_raw_tracepoint (args : tracepoint_raw_syscalls_sys_exit_t).

(** The return value as the hook context holds it. *)
Definition exit_raw (x : exit_call) : Z :=
  match x with
  | exit_kretprobe _ ctx => PT_REGS_RC ctx
  | exit_tracepoint _ args => ret args
  | exit_raw_tracepoint args => raw_ret args
  end.

Definition exit_ctx (x : exit_call) : ctx_t :=
  match x with
  | exit_kretprobe _ ctx => ctx_regs ctx
  | exit_tracepoint _ args => ctx_sys_exit args
  | exit_raw_tracepoint args => ctx_raw_sys_exit args
  end.

Section Dispatch.
Context `{helpers}.

Definition entry_probe (c : entry_call) : probe Z :=
  match c with
  | sys_lchown filename u g => kprobe_lchown filename u g
  | sys_fchown fd u g => kprobe_fchown fd u g
  | sys_chown filename u g => kprobe_chown filename u g
  | sys_lchown16 filename u g => kprobe_lchown16 filename u g
  | sys_fchown16 fd u g => kprobe_fchown16 fd u g
  | sys_chown16 filename u g => kprobe_chown16 filename u g
  | sys_fchownat dirfd filename u g => kprobe_fchownat dirfd filename u g
  end.

Definition exit_probe (x : exit_call) : probe Z :=
  match x with
  | exit_kretprobe lchown ctx => kretprobe_lchown ctx
  | exit_kretprobe fchown ctx => kretprobe_fchown ctx
  | exit_kretprobe chown ctx => kretprobe_chown ctx
  | exit_kretprobe lchown16 ctx => kretprobe_lchown16 ctx
  | exit_kretprobe fchown16 ctx => kretprobe_fchown16 ctx
  | exit_kretprobe chown16 ctx => kretprobe_chown16 ctx
  | exit_kretprobe fchownat ctx => kretprobe_fchownat ctx
  | exit_tracepoint lchown args => tracepoint_syscalls_sys_exit_lchown args
  | exit_tracepoint fchown args => tracepoint_syscalls_sys_exit_fchown args
  | exit_tracepoint chown args => tracepoint_syscalls_sys_exit_chown args
  | exit_tracepoint lchown16 args =>
      tracepoint_syscalls_sys_exit_lchown16 args
  | exit_tracepoint fchown16 args =>
      tracepoint_syscalls_sys_exit_fchown16 args
  | exit_tracepoint chown16 args => tracepoint_syscalls_sys_exit_chown16 args
  | exit_tracepoint fchownat args =>
      tracepoint_syscalls_sys_exit_fchownat args
  | exit_raw_tracepoint args => tracepoint_handle_sys_chown_exit args
  end.

(** The record [trace__sys_chown] builds for a pair of arguments. *)
Definition chown_record (user group : Z) : syscall_cache_t :=
  {| type := EVENT_CHOWN;
     policy := fetch_policy EVENT_CHOWN;
     setattr := {| user := user; group := group;
                   dentry := NULL_dentry; file := zero_file |} |}.

(** Whether the current task's chown entries are discarded. *)
Definition discarded (task : Z) : bool :=
  is_discarded_by_process task (mode (fetch_policy EVENT_CHOWN)) EVENT_CHOWN.

(** Modelled from the spec: the one mutation of an in-flight record
    between entry and exit, done by the resolution step of [setattr.h]
    ("dentry resolution in setattr.h", line 95): it attaches the resolved
    file identity to the record of the current task and leaves the tag,
    the policy snapshot and the requested uid and gid as captured. *)
Definition attach_file (d : dentry_ptr) (f : file_t)
    (record : syscall_cache_t) : syscall_cache_t :=
  {| type := type record;
     policy := policy record;
     setattr := {| user := user (setattr record);
                   group := group (setattr record);
                   dentry := d; file := f |} |}.

(** Modelled from the spec: the verdict of the approver on a record the
    candidate file was attached to ("false means discard without
    emitting an event").  For a chown record the approver is
    [chown_approvers], which reads the candidate from the record. *)
Definition approver_rejects (record : syscall_cache_t) : bool :=
  bool_decide (type record = EVENT_CHOWN) && (chown_approvers record =? 0).

(** Modelled from the spec: the approver and resolution step run for
    the current task.  It attaches the candidate file to the record in
    flight and asks the approver; a rejected record is discarded, its
    slot freed.  Without a record in flight the step does nothing. *)
Definition resolve_file (d : dentry_ptr) (f : file_t) : probe unit :=
  fun task w =>
    match syscalls w !! task with
    | Some record =>
        if approver_rejects (attach_file d f record)
        then (tt, {| syscalls := delete task (syscalls w);
                     trace := trace w |})
        else
          (tt, {| syscalls :=
                    <[task := attach_file d f record]> (syscalls w);
                  trace := trace w |})
    | None => (tt, w)
    end.

(** What happens to the record while the kernel executes the call:
    nothing, or the approver and resolution step (which keeps the
    record, with the file attached, or discards it). *)
Definition in_flight (r : option (dentry_ptr * file_t)) : probe unit :=
  match r with
  | Some (d, f) => resolve_file d f
  | None => ret_probe tt
  end.

(** One system call of the current task as the probes see it: entry,
    the kernel's work, exit.  [before_exit] is the world the exit probe
    starts from, [syscall_pair] the world it leaves. *)
Definition before_exit (c : entry_call) (r : option (dentry_ptr * file_t))
    (task : Z) (w : world) : world :=
  let (_, w1) := entry_probe c task w in
  let (_, w2) := in_flight r task w1 in
  w2.

Definition syscall_pair (c : entry_call) (r : option (dentry_ptr * file_t))
    (x : exit_call) (task : Z) (w : world) : world :=
  snd (exit_probe x task (before_exit c r task w)).

(** The file identity of a record created at entry, by the time of the
    exit. *)
Definition resolved_file (r : option (dentry_ptr * file_t)) : file_t :=
  match r with
  | Some (_, f) => f
  | None => zero_file
  end.

(** The event [sys_chown_ret] sends for a popped record: the members
    set by the initializer, then the three context fillers. *)
Definition chown_event (record : syscall_cache_t) (retval : Z) (task : Z)
    : chown_event_t :=
  let filled := fill_process_context task zero_process in
  {| event := {| async := 0 |};
     process := fst filled;
     span := fill_span_context task zero_span;
     container := fill_container_context (snd filled) zero_container;
     syscall := {| retval := retval |};
     event_file := file (setattr record);
     uid := user (setattr record);
     gid := group (setattr record) |}.

(** The steps of a completed [sys_chown_ret], in order. *)
Definition emit_steps (ctx : ctx_t) (record : syscall_cache_t) (retval : Z)
    (task : Z) : list step :=
  [ step_fill_process_context; step_fill_container_context;
    step_fill_span_context;
    step_send_event ctx EVENT_CHOWN (chown_event record retval task) ].

(** What the kernel's work makes of a record: the record the exit
    finds, if the approver did not discard it. *)
Definition in_flight_result (r : option (dentry_ptr * file_t))
    (record : syscall_cache_t) : option syscall_cache_t :=
  match r with
  | Some (d, f) =>
      if approver_rejects (attach_file d f record) then None
      else Some (attach_file d f record)
  | None => Some record
  end.

(** Whether the approver turns the record of an entry away. *)
Definition rejected (c : entry_call) (r : option (dentry_ptr * file_t))
    : bool :=
  match in_flight_result r (chown_record (entry_user c) (entry_group c)) with
  | Some _ => false
  | None => true
  end.

(** The chown record in flight for a task, if any. *)
Definition chown_in_flight (task : Z) (w : world) : option syscall_cache_t :=
  fst (CorrelationTable.pop task EVENT_CHOWN (syscalls w)).

End Dispatch.

(** ** Histories of probe invocations *)

Section Histories.
Context `{helpers}.

(** What can happen to the table and the trace: a task enters a chown
    call, the resolution step runs for a task, a task leaves a call. *)
Inductive action : Type :=
  | act_entry (c : entry_call)
  | act_resolve (d : dentry_ptr) (f : file_t)
  | act_exit (x : exit_call).

Definition perform (task : Z) (a : action) (w : world) : world :=
  match a with
  | act_entry c => (entry_probe c task w).2
  | act_resolve d f => (resolve_file d f task w).2
  | act_exit x => (exit_probe x task w).2
  end.

Fixpoint run_history (h : list (Z * action)) (w : world) : world :=
  match h with
  | [] => w
  | (task, a) :: h' => run_history h' (perform task a w)
  end.

Definition is_entry (a : Z * action) : bool :=
  match a.2 with
  | act_entry _ => true
  | _ => false
  end.

Definition is_exit (a : Z * action) : bool :=
  match a.2 with
  | act_exit _ => true
  | _ => false
  end.

Definition entries (h : list (Z * action)) : nat :=
  length (List.filter is_entry h).

Definition exits (h : list (Z * action)) : nat :=
  length (List.filter is_exit h).

(** A user and group pair that some entry of the history was called
    with. *)
Definition captured (h : list (Z * action)) (u g : Z) : Prop :=
  exists task c,
    (task, act_entry c) ∈ h /\ entry_user c = u /\ entry_group c = g.

(** Every chown record in flight and every event sent so far carries a
    captured pair. *)
Definition provenance (h : list (Z * action)) (w : world) : Prop :=
  (forall task record,
     syscalls w !! task = Some record -> type record = EVENT_CHOWN ->
     captured h (user (setattr record)) (group (setattr record))) /\
  (forall e, e ∈ emitted w -> captured h (uid e) (gid e)).

End Histories.

(** ** A concrete kernel

    A small instance of the parameters, used to run the probes on
    concrete inputs: policies are their mode, a file is its mount id,
    the identity records are numbers.  The chown entries of task 42 are
    discarded, [-EFAULT] (-14) is the unhandled error and mount 7 is the
    pipe filesystem; the approver turns the directory entry 13 away and
    the table holds 1024 records. *)

Definition sample_structs : structs := {|
  policy_t := Z;
  mode := fun p => p;
  file_t := Z;
  mount_id := fun f => f;
  zero_file := 0;
  dentry_ptr := Z;
  NULL_dentry := 0;
  process_context_t := Z;
  zero_process := 0;
  span_context_t := Z;
  zero_span := 0;
  container_context_t := Z;
  zero_container := 0;
  proc_cache_t := Z;
|}.

Definition sample_fetch_policy (ty : event_type) : Z :=
  match ty with
  | EVENT_CHOWN => 1
  | EVENT_OTHER _ => 0
  end.

Definition sample_is_discarded (task m : Z) (ty : event_type) : bool :=
  (task =? 42) && (m =? 1).

Definition sample_fill_process (task : Z) (p : Z) : Z * option Z :=
  (task, Some task).

Definition sample_fill_container (entry : option Z) (c : Z) : Z :=
  match entry with
  | Some e => e + 1
  | None => c
  end.

(** The sample approver turns the directory entry 13 away. *)
Definition sample_approver (d : Z) : Z := if d =? 13 then 0 else 1.

Definition sample_helpers : @helpers sample_structs :=
  @Helpers sample_structs
    sample_fetch_policy
    sample_is_discarded
    (fun r => r =? -14)
    (fun m => m =? 7)
    (fun _ d _ => sample_approver d)
    sample_fill_process
    sample_fill_container
    (fun task _ => task + 2)
    1024%positive
    (fun _ => 0%nat).


Definition empty_world : @world sample_structs :=
  {| syscalls := ∅; trace := [] |}.

(** An in-flight record of the sample kernel. *)
Definition sample_record (ty : event_type) (p u g f : Z)
    : @syscall_cache_t sample_structs :=
  @Build_syscall_cache_t sample_structs ty p
    (@Build_setattr_t sample_structs u g 0 f).

(** A resolution step of the sample kernel: dentry address and mount. *)
Definition sample_resolution (d f : Z)
    : option (@dentry_ptr sample_structs * @file_t sample_structs) :=
  Some (@pair (@dentry_ptr sample_structs) (@file_t sample_structs) d f).

(** The sample kernel after the policy store turned every chown entry
    away: the same helpers, except that every process is discarded. *)
Definition sample_helpers_discarding : @helpers sample_structs :=
  @Helpers sample_structs
    (fun _ => 9)
    (fun _ _ _ => true)
    (fun r => r =? -14)
    (fun m => m =? 7)
    (fun _ _ _ => 0)
    sample_fill_process
    sample_fill_container
    (fun task _ => task + 2)
    1024%positive
    (fun _ => 0%nat).

(** * Properties *)

(** ** Integers *)

Lemma to_int_id (z : Z) : int_range z -> to_int z = z.
Proof.
  unfold int_range, to_int. intros Hz.
  rewrite Z.mod_small by lia. lia.
Qed.

Lemma to_int_range (z : Z) : int_range (to_int z).
Proof.
  unfold int_range, to_int.
  pose proof (Z.mod_pos_bound (z + 2 ^ 31) (2 ^ 32) ltac:(lia)). lia.
Qed.

(** A negative [int] held in a 64-bit register as an unsigned value
    converts back to itself. *)
Lemma to_int_unsigned64 (code : Z) :
  int_range code -> to_int (2 ^ 64 + code) = code.
Proof.
  unfold to_int, int_range. intros Hcode.
  replace (2 ^ 64 + code + 2 ^ 31)
    with (code + 2 ^ 31 + 2 ^ 32 * 2 ^ 32) by lia.
  rewrite Z_mod_plus_full, Z.mod_small by lia. lia.
Qed.

(** ** The table *)

Section TableFacts.
Context `{helpers}.
Implicit Types (table : gmap Z syscall_cache_t) (record : syscall_cache_t).

Lemma pop_found task ty table record :
  table !! task = Some record -> type record = ty ->
  CorrelationTable.pop task ty table = (Some record, delete task table).
Proof.
  intros Hl Hty. unfold CorrelationTable.pop. rewrite Hl.
  destruct (decide (type record = ty)); [reflexivity | contradiction].
Qed.

Lemma pop_other_type task ty table record :
  table !! task = Some record -> type record <> ty ->
  CorrelationTable.pop task ty table = (None, table).
Proof.
  intros Hl Hty. unfold CorrelationTable.pop. rewrite Hl.
  destruct (decide (type record = ty)); [contradiction | reflexivity].
Qed.

Lemma pop_vacant task ty table :
  table !! task = None ->
  CorrelationTable.pop task ty table = (None, table).
Proof. intros Hl. unfold CorrelationTable.pop. now rewrite Hl. Qed.

Lemma pop_Some_inv task ty table record table' :
  CorrelationTable.pop task ty table = (Some record, table') ->
  table !! task = Some record /\ type record = ty /\
  table' = delete task table.
Proof.
  unfold CorrelationTable.pop.
  destruct (table !! task) as [r|] eqn:Hl; [|discriminate].
  destruct (decide (type r = ty)); [|discriminate].
  intros [= <- <-]. auto.
Qed.

Lemma pop_None_inv task ty table table' :
  CorrelationTable.pop task ty table = (None, table') -> table' = table.
Proof.
  unfold CorrelationTable.pop.
  destruct (table !! task) as [r|]; [|congruence].
  destruct (decide (type r = ty)); congruence.
Qed.

Lemma size_delete_present table task record :
  table !! task = Some record ->
  size table = S (size (delete task table)).
Proof.
  intros Hl. rewrite <- (insert_id table task record Hl) at 1.
  rewrite <- insert_delete_eq.
  apply map_size_insert_None, lookup_delete_eq.
Qed.


Lemma evict_lookup table task record :
  CorrelationTable.evict table !! task = Some record ->
  table !! task = Some record.
Proof.
  unfold CorrelationTable.evict.
  destruct (CorrelationTable.evicted table) as [k|]; [|auto].
  now intros [_ Hl]%lookup_delete_Some.
Qed.

Lemma evict_size_le table :
  (size (CorrelationTable.evict table) <= size table)%nat.
Proof.
  unfold CorrelationTable.evict.
  destruct (CorrelationTable.evicted table) as [k|]; [|lia].
  rewrite map_size_delete. destruct (table !! k); simpl; lia.
Qed.


Lemma push_room task record table :
  CorrelationTable.has_room task table ->
  CorrelationTable.push task record table = <[task := record]> table.
Proof.
  intros Hroom. unfold CorrelationTable.push.
  destruct (decide _); [reflexivity | contradiction].
Qed.

Lemma push_lookup_own task record table :
  CorrelationTable.push task record table !! task = Some record.
Proof.
  unfold CorrelationTable.push.
  destruct (decide _); apply lookup_insert_eq.
Qed.

(** A push puts no record in the slot of another task. *)
Lemma push_lookup_other task task' record table r :
  task <> task' ->
  CorrelationTable.push task record table !! task' = Some r ->
  table !! task' = Some r.
Proof.
  intros Hne. unfold CorrelationTable.push.
  destruct (decide _); rewrite lookup_insert_ne by exact Hne;
    [auto | apply evict_lookup].
Qed.

Lemma push_other_task task task' record table :
  CorrelationTable.has_room task table ->
  task <> task' ->
  CorrelationTable.push task record table !! task' = table !! task'.
Proof.
  intros Hroom Hne. rewrite push_room by exact Hroom.
  now apply lookup_insert_ne.
Qed.

Lemma push_other_task_or_evicted task task' record table :
  task <> task' ->
  CorrelationTable.push task record table !! task' = table !! task' \/
  CorrelationTable.push task record table !! task' = None.
Proof.
  intros Hne.
  destruct (CorrelationTable.push task record table !! task')
    as [r|] eqn:Hl; [|now right].
  left. symmetry. now apply push_lookup_other in Hl.
Qed.

Lemma push_size_le task record table :
  (size (CorrelationTable.push task record table) <= S (size table))%nat.
Proof.
  unfold CorrelationTable.push.
  destruct (decide _); rewrite map_size_insert.
  - destruct (table !! task); simpl; lia.
  - pose proof (evict_size_le table).
    destruct (CorrelationTable.evict table !! task); simpl; lia.
Qed.


Lemma pop_push task record table :
  CorrelationTable.pop task (type record)
    (CorrelationTable.push task record table)
  = (Some record, delete task (CorrelationTable.push task record table)).
Proof.
  apply pop_found; [apply push_lookup_own | reflexivity].
Qed.

Lemma pop_other_task task task' ty table :
  task <> task' ->
  (CorrelationTable.pop task ty table).2 !! task' = table !! task'.
Proof.
  intros Hne. unfold CorrelationTable.pop.
  destruct (table !! task) as [r|]; [|reflexivity].
  destruct (decide (type r = ty)); [|reflexivity].
  simpl. now apply lookup_delete_ne.
Qed.

Lemma pop_size_le task ty table :
  (size (CorrelationTable.pop task ty table).2 <= size table)%nat.
Proof.
  unfold CorrelationTable.pop.
  destruct (table !! task) as [r|] eqn:Hl; [|simpl; lia].
  destruct (decide (type r = ty)); simpl; [|lia].
  rewrite (size_delete_present _ _ _ Hl). lia.
Qed.

(** A pop looks at the slot of its task only. *)
Lemma pop_local task ty table1 table2 :
  table1 !! task = table2 !! task ->
  (CorrelationTable.pop task ty table1).1
  = (CorrelationTable.pop task ty table2).1 /\
  (CorrelationTable.pop task ty table1).2 !! task
  = (CorrelationTable.pop task ty table2).2 !! task.
Proof.
  intros Heq. unfold CorrelationTable.pop. rewrite <- Heq.
  destruct (table1 !! task) as [r|] eqn:Hl; [|simpl; split; congruence].
  destruct (decide (type r = ty)); simpl; [|split; congruence].
  now rewrite !lookup_delete_eq.
Qed.

End TableFacts.

(** ** The two canonical functions, run *)

Section ProbeFacts.
Context `{helpers}.

Lemma world_eta (w : world) :
  {| syscalls := syscalls w; trace := trace w |} = w.
Proof. now destruct w. Qed.

Lemma emitted_app (table table' : gmap Z syscall_cache_t)
    (tr more : list step) :
  emitted {| syscalls := table'; trace := tr ++ more |}
  = emitted {| syscalls := table; trace := tr |} ++ omap sent_event more.
Proof. unfold emitted. simpl. apply omap_app. Qed.

Lemma emitted_same_trace (w w' : world) :
  trace w' = trace w -> emitted w' = emitted w.
Proof. unfold emitted. now intros ->. Qed.

Lemma enrichments_same_trace (w w' : world) :
  trace w' = trace w -> enrichments w' = enrichments w.
Proof. unfold enrichments. now intros ->. Qed.

Lemma sent_emit_steps ctx record retval task :
  omap sent_event (emit_steps ctx record retval task)
  = [chown_event record retval task].
Proof. reflexivity. Qed.

(** [trace__sys_chown] returns 0 and either leaves the world alone or
    pushes the record built from its arguments. *)
Lemma trace__sys_chown_run user group task w :
  trace__sys_chown user group task w
  = (0, if discarded task then w
        else {| syscalls :=
                  CorrelationTable.push task (chown_record user group)
                    (syscalls w);
                trace := trace w |}).
Proof.
  unfold trace__sys_chown, discarded.
  destruct (is_discarded_by_process task _ EVENT_CHOWN); reflexivity.
Qed.

Lemma entry_probe_canonical c :
  entry_probe c = trace__sys_chown (entry_user c) (entry_group c).
Proof. destruct c; reflexivity. Qed.

Lemma exit_probe_canonical x :
  exit_probe x = sys_chown_ret (exit_ctx x) (to_int (exit_raw x)).
Proof. destruct x as [[] ctx|[] args|args]; reflexivity. Qed.

(** [sys_chown_ret] returns 0; with no chown record in flight it leaves
    the world alone, otherwise it frees the slot and, unless the return
    value or the mount is filtered, performs [emit_steps]. *)
Lemma sys_chown_ret_run ctx retval task w :
  sys_chown_ret ctx retval task w
  = (0, match chown_in_flight task w with
        | None => w
        | Some record =>
            {| syscalls := delete task (syscalls w);
               trace :=
                 if IS_UNHANDLED_ERROR retval then trace w
                 else if is_pipefs_mount_id
                           (mount_id (file (setattr record)))
                 then trace w
                 else trace w ++ emit_steps ctx record retval task |}
        end).
Proof.
  unfold sys_chown_ret, chown_in_flight, bind_probe, pop_syscall.
  destruct (CorrelationTable.pop task EVENT_CHOWN (syscalls w))
    as [[record|] table] eqn:Hpop; simpl.
  - apply pop_Some_inv in Hpop as (_ & _ & ->).
    destruct (IS_UNHANDLED_ERROR retval); [reflexivity|].
    destruct (is_pipefs_mount_id _); [reflexivity|].
    unfold call_fill_process_context, call_fill_container_context,
      call_fill_span_context, send_event, bind_probe, log_step, ret_probe.
    simpl.
    destruct (fill_process_context task zero_process) as [p entry] eqn:Hp.
    simpl. unfold emit_steps, chown_event. rewrite Hp. simpl.
    rewrite <- !app_assoc. reflexivity.
  - apply pop_None_inv in Hpop as ->. unfold ret_probe.
    now rewrite world_eta.
Qed.

End ProbeFacts.

(** ** Histories of the table *)

Section HistoryFacts.
Context `{helpers}.
Implicit Types (table : gmap Z syscall_cache_t) (record : syscall_cache_t).
Import CorrelationTable.

Lemma run_cons o ops table :
  run (o :: ops) table
  = ((apply_op o table).1 ++ (run ops (apply_op o table).2).1,
     (run ops (apply_op o table).2).2).
Proof.
  simpl. destruct (apply_op o table) as [seen table']. simpl.
  destruct (run ops table') as [seen' table'']. reflexivity.
Qed.

Lemma apply_op_pop task ty table :
  apply_op (Pop task ty) table
  = ([ {| obs_task := task; obs_type := ty;
          obs_found := (pop task ty table).1 |} ],
     (pop task ty table).2).
Proof. simpl. now destruct (pop task ty table). Qed.

(** In a history that fits, every push has room and the rest of the
    history fits what the first operation leaves. *)
Lemma fits_cons o ops table :
  fits (o :: ops) table ->
  (forall task record, o = Push task record -> has_room task table) /\
  fits ops (apply_op o table).2.
Proof.
  unfold fits. destruct o as [t r|t ty]; intros Hfit.
  - unfold pushes in *. simpl in *. split.
    + intros task record [= -> ->]. right. lia.
    + pose proof (push_size_le t r table). lia.
  - split; [discriminate|].
    rewrite apply_op_pop. unfold pushes in *. simpl in *.
    pose proof (pop_size_le t ty table). lia.
Qed.

Lemma apply_op_other_task o task table :
  op_task o <> task ->
  (forall t r, o = Push t r -> has_room t table) ->
  (apply_op o table).2 !! task = table !! task /\
  seen_by task (apply_op o table).1 = [].
Proof.
  intros Hne Hroom. destruct o as [t r|t ty]; simpl in *.
  - split; [|reflexivity]. apply push_other_task; eauto.
  - pose proof (pop_other_task t task ty table Hne) as Hl.
    destruct (pop t ty table) as [found table']. simpl in *.
    split; [exact Hl|].
    unfold seen_by. rewrite filter_cons_False by (simpl; exact Hne).
    reflexivity.
Qed.

Lemma apply_op_same_task o task table1 table2 :
  op_task o = task ->
  table1 !! task = table2 !! task ->
  (apply_op o table1).1 = (apply_op o table2).1 /\
  seen_by task (apply_op o table1).1 = (apply_op o table1).1 /\
  (apply_op o table1).2 !! task = (apply_op o table2).2 !! task.
Proof.
  intros Ht Heq. destruct o as [t r|t ty]; simpl in *; subst t.
  - rewrite !push_lookup_own. auto.
  - destruct (pop_local task ty table1 table2 Heq) as [Hf Hl].
    destruct (pop task ty table1) as [f1 t1].
    destruct (pop task ty table2) as [f2 t2]. simpl in *. subst f2.
    repeat split; [|exact Hl].
    unfold seen_by. rewrite filter_cons_True by reflexivity.
    reflexivity.
Qed.

(** In a history that fits the table, what a task sees and finds in its
    slot is what it would see and find had it run alone. *)
Lemma run_projection ops : forall task table1 table2,
  fits ops table1 ->
  table1 !! task = table2 !! task ->
  seen_by task (run ops table1).1 = (run (ops_of task ops) table2).1 /\
  (run ops table1).2 !! task = (run (ops_of task ops) table2).2 !! task.
Proof.
  induction ops as [|o ops IH]; intros task table1 table2 Hfit Heq.
  - simpl. auto.
  - apply fits_cons in Hfit as [Hroom Hfit].
    rewrite run_cons. simpl. unfold seen_by at 1.
    rewrite filter_app. fold (seen_by task (apply_op o table1).1).
    fold (seen_by task (run ops (apply_op o table1).2).1).
    destruct (decide (op_task o = task)) as [Ht|Hne].
    + unfold ops_of. rewrite filter_cons_True by exact Ht.
      fold (ops_of task ops). rewrite run_cons. simpl.
      destruct (apply_op_same_task o task table1 table2 Ht Heq)
        as (Hobs & Hmine & Hl).
      destruct (IH task _ _ Hfit Hl) as [IH1 IH2].
      rewrite Hmine, Hobs, IH1. auto.
    + unfold ops_of. rewrite filter_cons_False by exact Hne.
      fold (ops_of task ops).
      destruct (apply_op_other_task o task table1 Hne Hroom)
        as [Hl Hnone].
      rewrite Hnone. simpl. apply IH; [exact Hfit|]. now rewrite Hl.
Qed.

Lemma run_other_tasks ops task table :
  fits ops table ->
  Forall (fun o => op_task o <> task) ops ->
  (run ops table).2 !! task = table !! task.
Proof.
  intros Hfit Hall.
  destruct (run_projection ops task table table Hfit eq_refl) as [_ ->].
  unfold ops_of.
  replace (filter (fun o => op_task o = task) ops) with (@nil op);
    [reflexivity|].
  clear Hfit. induction Hall as [|o ops Ho _ IH]; [reflexivity|].
  now rewrite filter_cons_False.
Qed.

Lemma run_no_push ops : forall task table,
  table !! task = None ->
  Forall (fun o => ~ is_push_for task o) ops ->
  (run ops table).2 !! task = None.
Proof.
  induction ops as [|o ops IH]; intros task table Hl Hall; [exact Hl|].
  rewrite run_cons. simpl.
  apply Forall_cons in Hall as [Ho Hall].
  apply IH; [|exact Hall].
  destruct o as [t r|t ty].
  - simpl in *.
    destruct (push t r table !! task) as [r'|] eqn:Hl'; [|reflexivity].
    apply push_lookup_other in Hl'; [congruence | exact Ho].
  - rewrite apply_op_pop. simpl.
    destruct (decide (t = task)) as [->|Hne].
    + now rewrite (pop_vacant task ty table Hl).
    + now rewrite pop_other_task.
Qed.


End HistoryFacts.

(** ** A system call, from entry to exit *)

Section PairFacts.
Context `{helpers}.

Lemma chown_in_flight_Some task w record :
  chown_in_flight task w = Some record <->
  syscalls w !! task = Some record /\ type record = EVENT_CHOWN.
Proof.
  unfold chown_in_flight, CorrelationTable.pop.
  destruct (syscalls w !! task) as [r|]; simpl.
  - destruct (decide (type r = EVENT_CHOWN)); simpl.
    + split; [intros [= ->]; auto | intros [[= ->] _]; reflexivity].
    + split; [discriminate | intros [[= ->] ?]; contradiction].
  - split; [discriminate | intros [? _]; discriminate].
Qed.

Lemma chown_in_flight_lookup task w w' :
  syscalls w' !! task = syscalls w !! task ->
  chown_in_flight task w' = chown_in_flight task w.
Proof.
  intros Heq. unfold chown_in_flight.
  now destruct (pop_local task EVENT_CHOWN _ _ Heq).
Qed.

Lemma in_flight_result_Some r record record' :
  in_flight_result r record = Some record' ->
  type record' = type record /\
  user (setattr record') = user (setattr record) /\
  group (setattr record') = group (setattr record) /\
  file (setattr record')
  = match r with
    | Some (_, f) => f
    | None => file (setattr record)
    end.
Proof.
  destruct r as [[d f]|]; simpl.
  - destruct (approver_rejects _); [discriminate|].
    intros [= <-]. auto.
  - intros [= <-]. auto.
Qed.

Lemma in_flight_result_other_type r record :
  type record <> EVENT_CHOWN ->
  exists record', in_flight_result r record = Some record' /\
                  type record' <> EVENT_CHOWN.
Proof.
  intros Hty. destruct r as [[d f]|]; simpl; [|eauto].
  unfold approver_rejects. simpl.
  rewrite bool_decide_eq_false_2 by exact Hty. simpl. eauto.
Qed.

(** The kernel's work changes the record of the current task only, and
    performs no step of its own. *)
Lemma in_flight_run r task w :
  trace (in_flight r task w).2 = trace w /\
  syscalls (in_flight r task w).2 !! task
  = syscalls w !! task ≫= in_flight_result r.
Proof.
  destruct r as [[d f]|]; simpl.
  - unfold resolve_file.
    destruct (syscalls w !! task) as [record|] eqn:Hl; simpl.
    + destruct (approver_rejects _); simpl.
      * split; [reflexivity|]. apply lookup_delete_eq.
      * split; [reflexivity|]. apply lookup_insert_eq.
    + rewrite Hl. auto.
  - split; [reflexivity|]. now destruct (syscalls w !! task).
Qed.

Lemma chown_in_flight_after r task w :
  chown_in_flight task (in_flight r task w).2
  = chown_in_flight task w ≫= in_flight_result r.
Proof.
  destruct (in_flight_run r task w) as [_ Hl].
  unfold chown_in_flight, CorrelationTable.pop. rewrite Hl.
  destruct (syscalls w !! task) as [record|]; simpl; [|reflexivity].
  destruct (decide (type record = EVENT_CHOWN)) as [Hty|Hty]; simpl.
  - destruct (in_flight_result r record) as [record'|] eqn:Hres;
      [|reflexivity].
    destruct (in_flight_result_Some _ _ _ Hres) as (Hty' & _).
    destruct (decide (type record' = EVENT_CHOWN));
      [reflexivity | congruence].
  - destruct (in_flight_result_other_type r record Hty)
      as (record' & -> & Hty').
    now destruct (decide (type record' = EVENT_CHOWN)).
Qed.

Lemma before_exit_run c r task w :
  before_exit c r task w
  = (in_flight r task (entry_probe c task w).2).2.
Proof.
  unfold before_exit. destruct (entry_probe c task w) as [z w1]. simpl.
  now destruct (in_flight r task w1).
Qed.

Lemma before_exit_trace c r task w :
  trace (before_exit c r task w) = trace w.
Proof.
  rewrite before_exit_run. destruct (in_flight_run r task
    (entry_probe c task w).2) as [-> _].
  rewrite entry_probe_canonical, trace__sys_chown_run. simpl.
  now destruct (discarded task).
Qed.

Lemma chown_in_flight_pushed user group task w :
  chown_in_flight task
    {| syscalls :=
         CorrelationTable.push task (chown_record user group) (syscalls w);
       trace := trace w |}
  = Some (chown_record user group).
Proof.
  apply chown_in_flight_Some. simpl.
  split; [apply push_lookup_own | reflexivity].
Qed.

(** The chown record the exit probe finds: the one the entry pushed, as
    the kernel's work left it, or, when the entry was discarded, the one
    that was in flight before. *)
Lemma before_exit_in_flight c r task w :
  chown_in_flight task (before_exit c r task w)
  = if discarded task
    then chown_in_flight task w ≫= in_flight_result r
    else in_flight_result r
           (chown_record (entry_user c) (entry_group c)).
Proof.
  rewrite before_exit_run, chown_in_flight_after.
  rewrite entry_probe_canonical, trace__sys_chown_run. simpl.
  destruct (discarded task); [reflexivity|].
  now rewrite chown_in_flight_pushed.
Qed.

(** The table the exit probe starts from holds nothing for the task
    unless a chown record is in flight, when the entry was not
    discarded. *)
Lemma before_exit_lookup c r task w :
  discarded task = false ->
  syscalls (before_exit c r task w) !! task
  = in_flight_result r (chown_record (entry_user c) (entry_group c)).
Proof.
  intros Hd. rewrite before_exit_run.
  destruct (in_flight_run r task (entry_probe c task w).2) as [_ ->].
  rewrite entry_probe_canonical, trace__sys_chown_run, Hd. simpl.
  now rewrite push_lookup_own.
Qed.

(** The events of one call: none, or the one built from the record the
    exit probe found. *)
Lemma syscall_pair_emitted c r x task w :
  emitted (syscall_pair c r x task w)
  = emitted w ++
    match chown_in_flight task (before_exit c r task w) with
    | None => []
    | Some record =>
        if IS_UNHANDLED_ERROR (to_int (exit_raw x)) then []
        else if is_pipefs_mount_id (mount_id (file (setattr record)))
        then []
        else [chown_event record (to_int (exit_raw x)) task]
    end.
Proof.
  unfold syscall_pair. rewrite exit_probe_canonical, sys_chown_ret_run.
  simpl. pose proof (before_exit_trace c r task w) as Htr.
  destruct (chown_in_flight task (before_exit c r task w)) as [record|].
  - unfold emitted at 1. simpl. rewrite Htr.
    destruct (IS_UNHANDLED_ERROR _); [now rewrite app_nil_r|].
    destruct (is_pipefs_mount_id _); [now rewrite app_nil_r|].
    rewrite omap_app. reflexivity.
  - rewrite app_nil_r. now apply emitted_same_trace.
Qed.

End PairFacts.

(** * The specification's properties *)

(** C3: the seven entry probes are all [trace__sys_chown] applied to the
    user and group arguments, and every exit trigger (the seven return
    probes, the seven syscall tracepoints and the raw-syscalls tracepoint)
    is [sys_chown_ret] applied to its hook context and to the return
    value the context holds, converted to [int] by the call; the
    conversion leaves a return value that fits an [int] unchanged. *)
Theorem probes_fan_in `{helpers} :
  (forall filename fd dirfd user group,
     kprobe_lchown filename user group = trace__sys_chown user group /\
     kprobe_fchown fd user group = trace__sys_chown user group /\
     kprobe_chown filename user group = trace__sys_chown user group /\
     kprobe_lchown16 filename user group = trace__sys_chown user group /\
     kprobe_fchown16 fd user group = trace__sys_chown user group /\
     kprobe_chown16 filename user group = trace__sys_chown user group /\
     kprobe_fchownat dirfd filename user group
     = trace__sys_chown user group) /\
  (forall c,
     entry_probe c = trace__sys_chown (entry_user c) (entry_group c)) /\
  (forall x,
     exit_probe x = sys_chown_ret (exit_ctx x) (to_int (exit_raw x))) /\
  (forall x, int_range (exit_raw x) ->
     exit_probe x = sys_chown_ret (exit_ctx x) (exit_raw x)).
Proof.
  split; [|split; [|split]].
  - intros. repeat split.
  - apply entry_probe_canonical.
  - apply exit_probe_canonical.
  - intros x Hx. rewrite exit_probe_canonical.
    now rewrite (to_int_id _ Hx).
Qed.

(** C4: in the correlation table, a push for task T followed
    immediately by a pop for T of the record's type returns exactly the
    record pushed, whatever the table held and however full it was; the
    same holds with operations of other tasks in between as long as they
    do not exhaust the capacity of the table; a pop for a task for which
    nothing was pushed returns none and leaves the table as it was; and
    after a pop that returned a record, a second pop for the same task
    and type returns none. *)
Theorem push_pop_exactly_once `{helpers}
    (task : Z) (ty : event_type) (table : gmap Z syscall_cache_t) :
  (forall record,
     CorrelationTable.pop task (type record)
       (CorrelationTable.push task record table)
     = (Some record,
        delete task (CorrelationTable.push task record table))) /\
  (forall record ops,
     CorrelationTable.fits ops (CorrelationTable.push task record table) ->
     Forall (fun o => CorrelationTable.op_task o <> task) ops ->
     let table' :=
       (CorrelationTable.run ops
          (CorrelationTable.push task record table)).2 in
     CorrelationTable.pop task (type record) table'
     = (Some record, delete task table')) /\
  (forall ops,
     Forall (fun o => ~ CorrelationTable.is_push_for task o) ops ->
     let table' := (CorrelationTable.run ops ∅).2 in
     CorrelationTable.pop task ty table' = (None, table')) /\
  (table !! task = None ->
     CorrelationTable.pop task ty table = (None, table)) /\
  (forall record table',
     CorrelationTable.pop task ty table = (Some record, table') ->
     CorrelationTable.pop task ty table' = (None, table')).
Proof.
  split; [|split; [|split; [|split]]].
  - intros record. apply pop_push.
  - intros record ops Hfit Hall table'. apply pop_found; [|reflexivity].
    unfold table'. rewrite run_other_tasks by assumption.
    apply push_lookup_own.
  - intros ops Hall table'. apply pop_vacant.
    apply run_no_push; [apply lookup_empty | exact Hall].
  - apply pop_vacant.
  - intros record table' Hpop.
    apply pop_Some_inv in Hpop as (_ & _ & ->).
    apply pop_vacant, lookup_delete_eq.
Qed.


(** C1 (as amended): for every chown variant, an entry followed by an
    exit of any trigger form, the matching ones included, hands the
    transport at most one event, and that event carries the return
    value the exit received (the value held by the hook context,
    converted to [int]).  It hands over none if the return value is an
    unhandled error, if the mount of the record the exit pops is the
    pipe filesystem, if the approver turned the record away while the
    call was in flight, or if the entry was discarded by policy and no
    older chown record of the task was in flight; it hands over exactly
    one if the entry was not discarded and none of the other three
    applies; and it hands over none only for one of the four reasons. *)
Theorem one_event_per_pair `{helpers}
    (c : entry_call) (r : option (dentry_ptr * file_t)) (x : exit_call)
    (task : Z) (w : world) :
  let rv := to_int (exit_raw x) in
  let w' := syscall_pair c r x task w in
  let found := chown_in_flight task (before_exit c r task w) in
  ((exists e, emitted w' = emitted w ++ [e] /\ retval (syscall e) = rv) \/
   emitted w' = emitted w) /\
  (IS_UNHANDLED_ERROR rv = true -> emitted w' = emitted w) /\
  (forall record,
     found = Some record ->
     is_pipefs_mount_id (mount_id (file (setattr record))) = true ->
     emitted w' = emitted w) /\
  (discarded task = true -> chown_in_flight task w = None ->
   emitted w' = emitted w) /\
  (discarded task = false -> rejected c r = true ->
   emitted w' = emitted w) /\
  (discarded task = false ->
   rejected c r = false ->
   IS_UNHANDLED_ERROR rv = false ->
   is_pipefs_mount_id (mount_id (resolved_file r)) = false ->
   exists e, emitted w' = emitted w ++ [e] /\ retval (syscall e) = rv) /\
  (emitted w' = emitted w ->
   discarded task = true \/
   rejected c r = true \/
   IS_UNHANDLED_ERROR rv = true \/
   exists record,
     found = Some record /\
     is_pipefs_mount_id (mount_id (file (setattr record))) = true) /\
  (int_range (exit_raw x) -> rv = exit_raw x) /\
  (forall code, - 2 ^ 31 <= code < 0 -> exit_raw x = 2 ^ 64 + code ->
     rv = code).
Proof.
  intros rv w' found. unfold w', found, rv.
  rewrite syscall_pair_emitted.
  set (out := match chown_in_flight task (before_exit c r task w) with
              | Some record =>
                  if IS_UNHANDLED_ERROR (to_int (exit_raw x)) then []
                  else if is_pipefs_mount_id
                            (mount_id (file (setattr record)))
                  then []
                  else [chown_event record (to_int (exit_raw x)) task]
              | None => []
              end).
  assert (Hnil : forall l : list chown_event_t, l = [] ->
            emitted w ++ l = emitted w).
  { intros l ->. apply app_nil_r. }
  assert (Hone : forall (l : list chown_event_t) e, emitted w ++ e :: l
            = emitted w -> False).
  { intros l e Heq. rewrite <- (app_nil_r (emitted w)) in Heq at 2.
    apply app_inv_head in Heq. discriminate Heq. }
  repeat split.
  - unfold out. destruct (chown_in_flight task _) as [record|];
      [|right; now apply Hnil].
    destruct (IS_UNHANDLED_ERROR _); [right; now apply Hnil|].
    destruct (is_pipefs_mount_id _); [right; now apply Hnil|].
    left. eexists. split; reflexivity.
  - intros Hu. apply Hnil. unfold out. rewrite Hu.
    now destruct (chown_in_flight task _).
  - intros record Hrec Hp. apply Hnil. unfold out. rewrite Hrec, Hp.
    now destruct (IS_UNHANDLED_ERROR _).
  - intros Hd Hnone. apply Hnil. unfold out.
    now rewrite before_exit_in_flight, Hd, Hnone.
  - intros Hd Hrej. apply Hnil. unfold out.
    rewrite before_exit_in_flight, Hd. unfold rejected in Hrej.
    now destruct (in_flight_result r _).
  - intros Hd Hrej Hu Hp. unfold out.
    rewrite before_exit_in_flight, Hd. unfold rejected in Hrej.
    destruct (in_flight_result r _) as [record|] eqn:Hres;
      [|discriminate].
    destruct (in_flight_result_Some _ _ _ Hres) as (_ & _ & _ & Hfile).
    rewrite Hu.
    replace (file (setattr record)) with (resolved_file r)
      by (rewrite Hfile; now destruct r as [[d f]|]).
    rewrite Hp. eexists. split; reflexivity.
  - unfold out. rewrite before_exit_in_flight.
    destruct (discarded task); [auto|]. unfold rejected.
    destruct (in_flight_result r _) as [record|]; [|auto].
    destruct (IS_UNHANDLED_ERROR _); [auto|].
    destruct (is_pipefs_mount_id _) eqn:Hp.
    + intros _. do 3 right. eauto.
    + intros Heq. destruct (Hone _ _ Heq).
  - apply to_int_id.
  - intros code Hcode ->. apply to_int_unsigned64.
    unfold int_range. lia.
Qed.

(** C2: for every chown variant and every pair of user and group
    arguments, whatever the path, descriptor or directory arguments and
    whether or not the resolution step ran in between, every event the
    exit hands over for a record the entry captured has exactly those
    arguments as its uid and gid.  (A discarded entry captures nothing:
    the statement asks that it then finds no older chown record of the
    task still in flight.) *)
Theorem event_ids_are_entry_arguments `{helpers}
    (c : entry_call) (r : option (dentry_ptr * file_t)) (x : exit_call)
    (task : Z) (w : world) (es : list chown_event_t) :
  (discarded task = true -> chown_in_flight task w = None) ->
  emitted (syscall_pair c r x task w) = emitted w ++ es ->
  forall e, e ∈ es -> uid e = entry_user c /\ gid e = entry_group c.
Proof.
  intros Hstale. rewrite syscall_pair_emitted, before_exit_in_flight.
  intros Heq%app_inv_head e He. subst es.
  destruct (discarded task).
  - rewrite (Hstale eq_refl) in He. inversion He.
  - destruct (in_flight_result r _) as [record|] eqn:Hres;
      [|inversion He].
    destruct (in_flight_result_Some _ _ _ Hres) as (_ & Hu & Hg & _).
    destruct (IS_UNHANDLED_ERROR _); [inversion He|].
    destruct (is_pipefs_mount_id _); [inversion He|].
    apply list_elem_of_singleton in He. subst e. simpl.
    rewrite Hu, Hg. auto.
Qed.

(** C5: when the process is discarded for chown events, every entry
    probe returns having changed nothing: the table and the trace are
    as they were, so no record of the call exists and the call
    contributes nothing to what the exit does; the exit that follows,
    finding no chown record of the task, hands over no event. *)
Theorem discarded_entry_creates_nothing `{helpers}
    (c : entry_call) (task : Z) (w : world) :
  discarded task = true ->
  entry_probe c task w = (0, w) /\
  trace__sys_chown (entry_user c) (entry_group c) task w = (0, w) /\
  (forall r x,
     syscall_pair c r x task w
     = (exit_probe x task (in_flight r task w).2).2) /\
  (forall r x,
     chown_in_flight task w = None ->
     emitted (syscall_pair c r x task w) = emitted w).
Proof.
  intros Hd. rewrite entry_probe_canonical, trace__sys_chown_run, Hd.
  repeat split.
  - intros r x. unfold syscall_pair.
    rewrite before_exit_run, entry_probe_canonical, trace__sys_chown_run.
    now rewrite Hd.
  - intros r x Hnone.
    rewrite syscall_pair_emitted, before_exit_in_flight, Hd, Hnone.
    simpl. apply app_nil_r.
Qed.

(** C6 (as amended): when a chown record is popped, an unhandled return
    value drops the call without any step; every other return value,
    negative ones included, makes the probe hand over exactly one event
    provided the mount of the record is not the pipe filesystem; and
    every event handed over carries the return value the probe was
    called with. *)
Theorem return_value_classification `{helpers}
    (ctx : ctx_t) (rv : Z) (task : Z) (w : world)
    (record : syscall_cache_t) :
  chown_in_flight task w = Some record ->
  let w' := (sys_chown_ret ctx rv task w).2 in
  (IS_UNHANDLED_ERROR rv = true ->
   trace w' = trace w /\ emitted w' = emitted w) /\
  (IS_UNHANDLED_ERROR rv = false ->
   is_pipefs_mount_id (mount_id (file (setattr record))) = false ->
   exists e, emitted w' = emitted w ++ [e] /\ retval (syscall e) = rv) /\
  (forall es e,
     emitted w' = emitted w ++ es -> e ∈ es -> retval (syscall e) = rv).
Proof.
  intros Hrec w'. unfold w'. rewrite sys_chown_ret_run, Hrec. simpl.
  split; [|split].
  - intros ->. split; [reflexivity|]. now apply emitted_same_trace.
  - intros -> ->. exists (chown_event record rv task).
    unfold emitted. simpl. rewrite omap_app. auto.
  - intros es e. unfold emitted at 1. simpl.
    destruct (IS_UNHANDLED_ERROR rv).
    { intros Heq He. rewrite <- (app_nil_r (omap _ _)) in Heq.
      apply app_inv_head in Heq. subst es. inversion He. }
    destruct (is_pipefs_mount_id _).
    { intros Heq He. rewrite <- (app_nil_r (omap _ _)) in Heq.
      apply app_inv_head in Heq. subst es. inversion He. }
    rewrite omap_app. intros Heq%app_inv_head He. subst es.
    apply list_elem_of_singleton in He. now subst e.
Qed.

(** C7: when the popped chown record carries a mount id classified as
    the pipe filesystem, [sys_chown_ret] does nothing but free the slot:
    it performs no step, so no context is filled and no event is
    assembled or handed over. *)
Theorem pipefs_record_is_dropped `{helpers}
    (ctx : ctx_t) (rv : Z) (task : Z) (w : world)
    (record : syscall_cache_t) :
  chown_in_flight task w = Some record ->
  is_pipefs_mount_id (mount_id (file (setattr record))) = true ->
  sys_chown_ret ctx rv task w
  = (0, {| syscalls := delete task (syscalls w); trace := trace w |}) /\
  emitted (sys_chown_ret ctx rv task w).2 = emitted w /\
  enrichments (sys_chown_ret ctx rv task w).2 = enrichments w.
Proof.
  intros Hrec Hp. rewrite sys_chown_ret_run, Hrec, Hp.
  destruct (IS_UNHANDLED_ERROR rv); repeat split.
Qed.

(** C9: [sys_chown_ret] does not read the policy snapshot: run on two
    worlds that differ only in the policy of the chown record it pops,
    it returns the same value and leaves the same world, with the same
    steps and the same event (or none). *)
Theorem exit_ignores_policy `{helpers}
    (ctx : ctx_t) (rv : Z) (task : Z) (table : gmap Z syscall_cache_t)
    (tr : list step) (record1 record2 : syscall_cache_t) :
  type record1 = EVENT_CHOWN ->
  type record2 = EVENT_CHOWN ->
  setattr record1 = setattr record2 ->
  sys_chown_ret ctx rv task
    {| syscalls := <[task := record1]> table; trace := tr |}
  = sys_chown_ret ctx rv task
      {| syscalls := <[task := record2]> table; trace := tr |}.
Proof.
  intros Ht1 Ht2 Hsame. rewrite !sys_chown_ret_run.
  assert (Hin : forall record, type record = EVENT_CHOWN ->
    chown_in_flight task
      {| syscalls := <[task := record]> table; trace := tr |}
    = Some record).
  { intros record Ht. apply chown_in_flight_Some. simpl.
    split; [apply lookup_insert_eq | exact Ht]. }
  rewrite (Hin _ Ht1), (Hin _ Ht2). simpl.
  rewrite !delete_insert_eq.
  unfold emit_steps, chown_event. now rewrite Hsame.
Qed.

(** C10: an entry probe reads its user and group arguments and nothing
    else of what it is passed: two entries, of any variants, with the
    same user and group do the same thing whatever their path,
    descriptor and directory arguments; unless the process is
    discarded, a record built from the two arguments and the fetched
    policy is in flight afterwards, whether or not the file exists, and
    it is the exit probe that frees the slot. *)
Theorem entry_reads_ids_only `{helpers}
    (c1 c2 : entry_call) (task : Z) (w : world) :
  entry_user c1 = entry_user c2 ->
  entry_group c1 = entry_group c2 ->
  entry_probe c1 task w = entry_probe c2 task w /\
  (discarded task = false ->
   syscalls (entry_probe c1 task w).2 !! task
   = Some (chown_record (entry_user c1) (entry_group c1)) /\
   forall r x, syscalls (syscall_pair c1 r x task w) !! task = None).
Proof.
  intros Hu Hg. split.
  - rewrite !entry_probe_canonical. now rewrite Hu, Hg.
  - intros Hd. split.
    + rewrite entry_probe_canonical, trace__sys_chown_run, Hd. simpl.
      apply push_lookup_own.
    + intros r x. unfold syscall_pair.
      rewrite exit_probe_canonical, sys_chown_ret_run.
      rewrite before_exit_in_flight, Hd. simpl.
      destruct (in_flight_result r _) as [record|] eqn:Hres; simpl.
      * apply lookup_delete_eq.
      * now rewrite before_exit_lookup, Hres.
Qed.

(** C6 (as stated) fails: a chown record on the pipe filesystem is
    popped, the return value 0 is not an unhandled error, and no event
    is handed over. *)
Lemma handled_return_without_event :
  ~ (forall (S : structs) (K : @helpers S) (ctx : ctx_t) (rv task : Z)
            (w : @world S) (record : @syscall_cache_t S),
       @chown_in_flight S task w = Some record ->
       @IS_UNHANDLED_ERROR S K rv = false ->
       exists e : @chown_event_t S,
         @emitted S (@sys_chown_ret S K ctx rv task w).2
         = @emitted S w ++ [e] /\
         retval (@syscall S e) = rv).
Proof.
  intros Hclaim.
  pose (record := sample_record EVENT_CHOWN 1 1000 1000 7).
  pose (w := @Build_world sample_structs {[ 5 := record ]} []).
  assert (Hrec : @chown_in_flight sample_structs 5 w = Some record)
    by reflexivity.
  assert (Hrv : @IS_UNHANDLED_ERROR sample_structs sample_helpers 0 = false)
    by reflexivity.
  destruct (Hclaim sample_structs sample_helpers
              (ctx_regs {| PT_REGS_RC := 0 |}) 0 5 w record Hrec Hrv)
    as (e & Hemit & _).
  vm_compute in Hemit. discriminate Hemit.
Qed.


(** C1 (as stated) fails in both directions.  A discarded entry does
    not make the pair silent: task 42 is discarded, but an older chown
    record of the task is still in flight and the exit reports it.  And
    the three discard reasons are not the only ones: task 5 is not
    discarded, the return value 0 is no unhandled error and no record
    on the pipe filesystem is popped, but the approver turned the file
    away and nothing is reported. *)
Lemma discard_reasons_do_not_decide :
  ~ (forall (S : structs) (K : @helpers S) (c : entry_call)
            (r : option (@dentry_ptr S * @file_t S)) (x : exit_call)
            (task : Z) (w : @world S),
       @discarded S K task = true ->
       @emitted S (@syscall_pair S K c r x task w) = @emitted S w) /\
  ~ (forall (S : structs) (K : @helpers S) (c : entry_call)
            (r : option (@dentry_ptr S * @file_t S)) (x : exit_call)
            (task : Z) (w : @world S),
       @discarded S K task = false ->
       @IS_UNHANDLED_ERROR S K (to_int (exit_raw x)) = false ->
       (forall record : @syscall_cache_t S,
          @chown_in_flight S task (@before_exit S K c r task w)
          = Some record ->
          @is_pipefs_mount_id S K
            (@mount_id S (@file S (@setattr S record))) = false) ->
       exists e : @chown_event_t S,
         @emitted S (@syscall_pair S K c r x task w)
         = @emitted S w ++ [e]).
Proof.
  pose (c := sys_chown 4096 1000 1000).
  pose (x := exit_kretprobe chown {| PT_REGS_RC := 0 |}).
  split; intros Hclaim.
  - pose (stale := sample_record EVENT_CHOWN 1 7 8 3).
    pose (w := @Build_world sample_structs {[ 42 := stale ]} []).
    assert (Hd : @discarded sample_structs sample_helpers 42 = true)
      by reflexivity.
    pose proof (Hclaim sample_structs sample_helpers c None x 42 w Hd)
      as Hemit.
    vm_compute in Hemit. discriminate Hemit.
  - assert (Hd : @discarded sample_structs sample_helpers 5 = false)
      by reflexivity.
    assert (Hu : @IS_UNHANDLED_ERROR sample_structs sample_helpers
                   (to_int (exit_raw x)) = false) by reflexivity.
    destruct (Hclaim sample_structs sample_helpers c
                (sample_resolution 13 3) x 5 empty_world Hd Hu)
      as (e & Hemit).
    + intros record Hrec. vm_compute in Hrec. discriminate Hrec.
    + vm_compute in Hemit. discriminate Hemit.
Qed.

(** * Further properties of the probes *)

Section MoreFacts.
Context `{helpers}.

Lemma chown_in_flight_vacant task w :
  syscalls w !! task = None -> chown_in_flight task w = None.
Proof.
  intros Hl. unfold chown_in_flight. now rewrite (pop_vacant _ _ _ Hl).
Qed.

(** The steps [sys_chown_ret] adds, and the slot it leaves. *)
Lemma sys_chown_ret_trace ctx rv task w :
  trace (sys_chown_ret ctx rv task w).2
  = trace w ++
    match chown_in_flight task w with
    | None => []
    | Some record =>
        if IS_UNHANDLED_ERROR rv then []
        else if is_pipefs_mount_id (mount_id (file (setattr record)))
        then []
        else emit_steps ctx record rv task
    end.
Proof.
  rewrite sys_chown_ret_run. simpl.
  destruct (chown_in_flight task w) as [record|]; simpl;
    [|now rewrite app_nil_r].
  destruct (IS_UNHANDLED_ERROR rv); [now rewrite app_nil_r|].
  destruct (is_pipefs_mount_id _); [now rewrite app_nil_r|reflexivity].
Qed.

Lemma sys_chown_ret_slot ctx rv task w :
  chown_in_flight task (sys_chown_ret ctx rv task w).2 = None.
Proof.
  rewrite sys_chown_ret_run. simpl.
  destruct (chown_in_flight task w) as [record|] eqn:Hrec; [|exact Hrec].
  apply chown_in_flight_vacant. simpl. apply lookup_delete_eq.
Qed.

Lemma sys_chown_ret_frame ctx rv task task' w :
  task' <> task ->
  syscalls (sys_chown_ret ctx rv task w).2 !! task' = syscalls w !! task'.
Proof.
  intros Hne. rewrite sys_chown_ret_run. simpl.
  destruct (chown_in_flight task w); [|reflexivity].
  simpl. apply lookup_delete_ne. congruence.
Qed.

Lemma trace__sys_chown_frame user group task task' w :
  discarded task = true \/ CorrelationTable.has_room task (syscalls w) ->
  task' <> task ->
  syscalls (trace__sys_chown user group task w).2 !! task'
  = syscalls w !! task'.
Proof.
  intros Hroom Hne. rewrite trace__sys_chown_run. simpl.
  destruct (discarded task); [reflexivity|].
  destruct Hroom as [Hd|Hroom]; [discriminate|].
  simpl. apply push_other_task; [exact Hroom | congruence].
Qed.

Lemma trace__sys_chown_frame_or_evicted user group task task' w :
  task' <> task ->
  syscalls (trace__sys_chown user group task w).2 !! task'
  = syscalls w !! task' \/
  syscalls (trace__sys_chown user group task w).2 !! task' = None.
Proof.
  intros Hne. rewrite trace__sys_chown_run. simpl.
  destruct (discarded task); [now left|].
  simpl. apply push_other_task_or_evicted. congruence.
Qed.

Lemma in_flight_frame r task task' w :
  task' <> task ->
  syscalls (in_flight r task w).2 !! task' = syscalls w !! task'.
Proof.
  intros Hne. destruct r as [[d f]|]; [|reflexivity].
  simpl. unfold resolve_file.
  destruct (syscalls w !! task); [|reflexivity].
  destruct (approver_rejects _); simpl.
  - apply lookup_delete_ne. congruence.
  - apply lookup_insert_ne. congruence.
Qed.

Lemma syscall_pair_frame c r x task task' w :
  discarded task = true \/ CorrelationTable.has_room task (syscalls w) ->
  task' <> task ->
  syscalls (syscall_pair c r x task w) !! task' = syscalls w !! task'.
Proof.
  intros Hroom Hne. unfold syscall_pair.
  rewrite exit_probe_canonical, sys_chown_ret_frame by exact Hne.
  rewrite before_exit_run, in_flight_frame by exact Hne.
  rewrite entry_probe_canonical. now apply trace__sys_chown_frame.
Qed.

Lemma elem_of_emit_steps_sent ctx record rv task ctx' ty ev :
  step_send_event ctx' ty ev ∈ emit_steps ctx record rv task ->
  ctx' = ctx /\ ty = EVENT_CHOWN /\ ev = chown_event record rv task.
Proof.
  unfold emit_steps. intros Hin.
  repeat (apply elem_of_cons in Hin as [Hin|Hin]; [discriminate Hin|]).
  apply list_elem_of_singleton in Hin. now injection Hin as -> -> ->.
Qed.

End MoreFacts.

(** X1: an exit for a task with no chown record in flight (no entry was
    seen, the entry was discarded, or the slot holds the record of
    another event type) is a no-op for every trigger form: it returns 0
    and leaves the table and the trace exactly as they were. *)
Theorem exit_without_record_is_noop `{helpers}
    (x : exit_call) (task : Z) (w : world) :
  chown_in_flight task w = None ->
  exit_probe x task w = (0, w).
Proof.
  intros Hnone. now rewrite exit_probe_canonical, sys_chown_ret_run, Hnone.
Qed.

(** X2: an exit consumes the record on every path, also when it drops
    the call: after any exit no chown record of the task is in flight,
    so a second exit trigger for the same call (return probe and
    tracepoint both attached, or a spurious exit) changes nothing and
    sends nothing. *)
Theorem second_exit_is_noop `{helpers}
    (x1 x2 : exit_call) (task : Z) (w : world) :
  chown_in_flight task (exit_probe x1 task w).2 = None /\
  exit_probe x2 task (exit_probe x1 task w).2
  = (0, (exit_probe x1 task w).2).
Proof.
  assert (Hfree : chown_in_flight task (exit_probe x1 task w).2 = None).
  { rewrite exit_probe_canonical. apply sys_chown_ret_slot. }
  split; [exact Hfree|].
  now rewrite (exit_probe_canonical x2), sys_chown_ret_run, Hfree.
Qed.

(** X3: the event of a call carries the file identity that was attached
    to the record while the call was in flight (the zeroed file when
    nothing was attached) and is marked synchronous ([async] 0); every
    hand-over to the transport is made with [EVENT_CHOWN] and with the
    hook context of the exit trigger that made it. *)
Theorem event_carries_resolved_file `{helpers}
    (c : entry_call) (r : option (dentry_ptr * file_t)) (x : exit_call)
    (task : Z) (w : world) :
  (discarded task = false ->
   forall es e,
     emitted (syscall_pair c r x task w) = emitted w ++ es -> e ∈ es ->
     event_file e = resolved_file r /\ async (event e) = 0) /\
  (forall more ctx ty ev,
     trace (syscall_pair c r x task w) = trace w ++ more ->
     step_send_event ctx ty ev ∈ more ->
     ctx = exit_ctx x /\ ty = EVENT_CHOWN /\ async (event ev) = 0).
Proof.
  split.
  - intros Hd es e. rewrite syscall_pair_emitted, before_exit_in_flight, Hd.
    intros Heq%app_inv_head He. subst es.
    destruct (in_flight_result r _) as [record|] eqn:Hres;
      [|inversion He].
    destruct (in_flight_result_Some _ _ _ Hres) as (_ & _ & _ & Hfile).
    destruct (IS_UNHANDLED_ERROR _); [inversion He|].
    destruct (is_pipefs_mount_id _); [inversion He|].
    apply list_elem_of_singleton in He. subst e. simpl.
    rewrite Hfile. now destruct r as [[d f]|].
  - intros more ctx ty ev. unfold syscall_pair.
    rewrite exit_probe_canonical, sys_chown_ret_trace, before_exit_trace.
    intros Heq%app_inv_head Hin. subst more.
    destruct (chown_in_flight task _) as [record|]; [|inversion Hin].
    destruct (IS_UNHANDLED_ERROR _); [inversion Hin|].
    destruct (is_pipefs_mount_id _); [inversion Hin|].
    apply elem_of_emit_steps_sent in Hin as (-> & -> & ->). auto.
Qed.

(** X4: [sys_chown_ret] either performs no step at all or performs
    exactly four, in this order: the process, container and span
    context fillers, once each, and then one hand-over to the
    transport.  The event handed over has its process and span context
    filled for the task that runs the exit, and its container context
    filled from the process cache entry the process filler returned. *)
Theorem enrichment_precedes_send `{helpers}
    (ctx : ctx_t) (rv : Z) (task : Z) (w : world) :
  let w' := (sys_chown_ret ctx rv task w).2 in
  trace w' = trace w \/
  exists e,
    trace w'
    = trace w ++ [ step_fill_process_context; step_fill_container_context;
                   step_fill_span_context;
                   step_send_event ctx EVENT_CHOWN e ] /\
    process e = (fill_process_context task zero_process).1 /\
    container e
    = fill_container_context (fill_process_context task zero_process).2
        zero_container /\
    span e = fill_span_context task zero_span.
Proof.
  intros w'. unfold w'. rewrite sys_chown_ret_trace.
  destruct (chown_in_flight task w) as [record|];
    [|left; apply app_nil_r].
  destruct (IS_UNHANDLED_ERROR rv); [left; apply app_nil_r|].
  destruct (is_pipefs_mount_id _); [left; apply app_nil_r|].
  right. exists (chown_event record rv task). repeat split.
Qed.

(** X5: an entry probe, of any variant and on either path, returns 0
    and performs no step (it fills no context and sends no event).  It
    never writes the slot of another task: that slot is as it was
    whenever the entry is discarded or its push has room, and otherwise
    it is as it was or has been evicted. *)
Theorem entry_performs_no_step `{helpers}
    (c : entry_call) (task : Z) (w : world) :
  (entry_probe c task w).1 = 0 /\
  trace (entry_probe c task w).2 = trace w /\
  emitted (entry_probe c task w).2 = emitted w /\
  forall task', task' <> task ->
    (discarded task = true \/
     CorrelationTable.has_room task (syscalls w) ->
     syscalls (entry_probe c task w).2 !! task' = syscalls w !! task') /\
    (syscalls (entry_probe c task w).2 !! task' = syscalls w !! task' \/
     syscalls (entry_probe c task w).2 !! task' = None).
Proof.
  assert (Htr : trace (entry_probe c task w).2 = trace w).
  { rewrite entry_probe_canonical, trace__sys_chown_run. simpl.
    now destruct (discarded task). }
  split; [|split; [exact Htr|split]].
  - now rewrite entry_probe_canonical, trace__sys_chown_run.
  - now apply emitted_same_trace.
  - intros task' Hne. rewrite entry_probe_canonical. split.
    + intros Hroom. now apply trace__sys_chown_frame.
    + now apply trace__sys_chown_frame_or_evicted.
Qed.

(** X6: an exit probe returns 0, keeps every step performed before it,
    leaves the slot of every other task as it was, and what it adds
    depends on the slot of its own task only: run on two worlds that
    agree on that slot, it adds the same steps. *)
Theorem exit_is_local `{helpers} (x : exit_call) (task : Z) (w : world) :
  (exit_probe x task w).1 = 0 /\
  (forall task', task' <> task ->
     syscalls (exit_probe x task w).2 !! task' = syscalls w !! task') /\
  (forall w2, syscalls w2 !! task = syscalls w !! task ->
     exists more,
       trace (exit_probe x task w).2 = trace w ++ more /\
       trace (exit_probe x task w2).2 = trace w2 ++ more).
Proof.
  rewrite exit_probe_canonical. split; [|split].
  - now rewrite sys_chown_ret_run.
  - intros task' Hne. now apply sys_chown_ret_frame.
  - intros w2 Hslot. rewrite !sys_chown_ret_trace.
    rewrite (chown_in_flight_lookup task w w2 Hslot). eauto.
Qed.

(** X7: a whole chown call of another task, entry to exit, that runs
    between the entry and the exit of a call does not show in what the
    exit does, provided the other task's entry is discarded or its push
    has room in the table: the exit adds the steps it would have added
    without it. *)
Theorem other_task_call_is_invisible `{helpers}
    (c1 c2 : entry_call) (r1 r2 : option (dentry_ptr * file_t))
    (x1 x2 : exit_call) (task1 task2 : Z) (w : world) :
  task1 <> task2 ->
  let w1 := before_exit c1 r1 task1 w in
  let w2 := syscall_pair c2 r2 x2 task2 w1 in
  discarded task2 = true \/
  CorrelationTable.has_room task2 (syscalls w1) ->
  syscalls w2 !! task1 = syscalls w1 !! task1 /\
  exists more,
    trace (exit_probe x1 task1 w1).2 = trace w1 ++ more /\
    trace (exit_probe x1 task1 w2).2 = trace w2 ++ more.
Proof.
  intros Hne w1 w2 Hroom.
  assert (Hslot : syscalls w2 !! task1 = syscalls w1 !! task1)
    by now apply syscall_pair_frame.
  split; [exact Hslot|].
  rewrite exit_probe_canonical, !sys_chown_ret_trace.
  rewrite (chown_in_flight_lookup task1 w1 w2 Hslot). eauto.
Qed.

(** X8: when a task enters a second chown call before the exit of the
    first was seen, the second record replaces the first: the exit
    that follows reports the user and group of the second call, at most
    once, and leaves nothing in flight, so the first call is never
    reported. *)
Theorem second_entry_replaces_first `{helpers}
    (c1 c2 : entry_call) (r : option (dentry_ptr * file_t)) (x : exit_call)
    (task : Z) (w : world) (es : list chown_event_t) :
  discarded task = false ->
  let w1 := (entry_probe c1 task w).2 in
  emitted (syscall_pair c2 r x task w1) = emitted w ++ es ->
  (length es <= 1)%nat /\
  (forall e, e ∈ es ->
     uid e = entry_user c2 /\ gid e = entry_group c2) /\
  chown_in_flight task (syscall_pair c2 r x task w1) = None.
Proof.
  intros Hd w1.
  assert (Hem : emitted w1 = emitted w).
  { apply emitted_same_trace. unfold w1.
    rewrite entry_probe_canonical, trace__sys_chown_run. simpl.
    now rewrite Hd. }
  rewrite syscall_pair_emitted, before_exit_in_flight, Hd, Hem.
  intros Heq%app_inv_head. subst es. split; [|split].
  - destruct (in_flight_result r _); [|simpl; lia].
    destruct (IS_UNHANDLED_ERROR _); [simpl; lia|].
    destruct (is_pipefs_mount_id _); simpl; lia.
  - intros e He.
    destruct (in_flight_result r _) as [record|] eqn:Hres;
      [|inversion He].
    destruct (in_flight_result_Some _ _ _ Hres) as (_ & Hu & Hg & _).
    destruct (IS_UNHANDLED_ERROR _); [inversion He|].
    destruct (is_pipefs_mount_id _); [inversion He|].
    apply list_elem_of_singleton in He. subst e. simpl.
    rewrite Hu, Hg. auto.
  - unfold syscall_pair. rewrite exit_probe_canonical.
    apply sys_chown_ret_slot.
Qed.

(** X9: [sys_chown_ret] consults neither the policy store nor the
    process discarders: two kernels whose error classification, mount
    classification and context fillers agree give the same exit,
    whatever [fetch_policy], [is_discarded_by_process] and the approver
    answer.  A call accepted at entry is therefore reported even if the
    process is discarded by the time of the exit. *)
Theorem exit_ignores_policy_store `{S : structs} (K1 K2 : @helpers S)
    (ctx : ctx_t) (rv : Z) (task : Z) (w : @world S) :
  (forall z, @IS_UNHANDLED_ERROR S K1 z = @IS_UNHANDLED_ERROR S K2 z) ->
  (forall m, @is_pipefs_mount_id S K1 m = @is_pipefs_mount_id S K2 m) ->
  (forall t p, @fill_process_context S K1 t p
               = @fill_process_context S K2 t p) ->
  (forall e c, @fill_container_context S K1 e c
               = @fill_container_context S K2 e c) ->
  (forall t s, @fill_span_context S K1 t s
               = @fill_span_context S K2 t s) ->
  @sys_chown_ret S K1 ctx rv task w = @sys_chown_ret S K2 ctx rv task w.
Proof.
  intros Hu Hm Hp Hc Hs.
  rewrite (@sys_chown_ret_run S K1), (@sys_chown_ret_run S K2).
  destruct (chown_in_flight task w) as [record|]; [|reflexivity].
  rewrite Hu, Hm. unfold emit_steps, chown_event.
  now rewrite Hp, Hc, Hs.
Qed.

(** X10: the return code of an event is the return value the hook
    context holds, reduced to a 32-bit signed [int]: it always lies in
    the [int] range, and a return register holding a negative error
    code as an unsigned 64-bit value is reported as that negative
    code. *)
Theorem event_return_code_is_int `{helpers}
    (x : exit_call) (task : Z) (w : world) (es : list chown_event_t) :
  emitted (exit_probe x task w).2 = emitted w ++ es ->
  forall e, e ∈ es ->
    retval (syscall e) = to_int (exit_raw x) /\
    int_range (retval (syscall e)) /\
    forall code, - 2 ^ 31 <= code < 0 -> exit_raw x = 2 ^ 64 + code ->
      retval (syscall e) = code.
Proof.
  rewrite exit_probe_canonical, sys_chown_ret_run. simpl.
  destruct (chown_in_flight task w) as [record|].
  - unfold emitted at 1. simpl.
    assert (Hnil : forall es0 e0,
      omap sent_event (trace w) = emitted w ++ es0 -> e0 ∈ es0 -> False).
    { intros es0 e0 Heq He0. unfold emitted in Heq.
      rewrite <- (app_nil_r (omap _ _)) in Heq at 1.
      apply app_inv_head in Heq. subst es0. inversion He0. }
    destruct (IS_UNHANDLED_ERROR _);
      [intros Heq e He; destruct (Hnil _ _ Heq He)|].
    destruct (is_pipefs_mount_id _);
      [intros Heq e He; destruct (Hnil _ _ Heq He)|].
    rewrite omap_app. intros Heq%app_inv_head e He. subst es.
    apply list_elem_of_singleton in He. subst e. simpl.
    split; [reflexivity|]. split; [apply to_int_range|].
    intros code Hcode ->. apply to_int_unsigned64.
    unfold int_range. lia.
  - intros Heq e He. rewrite <- (app_nil_r (emitted w)) in Heq at 1.
    apply app_inv_head in Heq. subst es. inversion He.
Qed.

(** ** Histories *)

Section HistoryInvariants.
Context `{helpers}.

Lemma sys_chown_ret_emitted ctx rv task w :
  emitted (sys_chown_ret ctx rv task w).2
  = emitted w ++
    match chown_in_flight task w with
    | None => []
    | Some record =>
        if IS_UNHANDLED_ERROR rv then []
        else if is_pipefs_mount_id (mount_id (file (setattr record)))
        then []
        else [chown_event record rv task]
    end.
Proof.
  unfold emitted. rewrite sys_chown_ret_trace, omap_app. f_equal.
  destruct (chown_in_flight task w) as [record|]; [|reflexivity].
  destruct (IS_UNHANDLED_ERROR rv); [reflexivity|].
  now destruct (is_pipefs_mount_id _).
Qed.

(** One action raises the number of events and records together by at
    most one, and only if it is an entry. *)
Lemma perform_potential task a w :
  (length (emitted (perform task a w)) + size (syscalls (perform task a w))
   <= length (emitted w) + size (syscalls w)
      + (if is_entry (task, a) then 1 else 0))%nat.
Proof.
  destruct a as [c|d f|x]; simpl.
  - rewrite entry_probe_canonical, trace__sys_chown_run. simpl.
    destruct (discarded task); [lia|].
    unfold emitted. simpl.
    pose proof (push_size_le task
      (chown_record (entry_user c) (entry_group c)) (syscalls w)). lia.
  - unfold resolve_file.
    destruct (syscalls w !! task) as [record|] eqn:Hl; simpl; [|lia].
    destruct (approver_rejects _); unfold emitted; simpl.
    + rewrite (size_delete_present _ _ _ Hl). lia.
    + rewrite map_size_insert_Some by (rewrite Hl; eauto). lia.
  - rewrite exit_probe_canonical, sys_chown_ret_emitted, sys_chown_ret_run.
    simpl. destruct (chown_in_flight task w) as [record|] eqn:Hrec.
    + apply chown_in_flight_Some in Hrec as [Hl _]. simpl.
      rewrite (size_delete_present _ _ _ Hl), length_app.
      destruct (IS_UNHANDLED_ERROR _); [simpl; lia|].
      destruct (is_pipefs_mount_id _); simpl; lia.
    + rewrite app_nil_r. lia.
Qed.

(** One action sends at most one event, and only if it is an exit. *)
Lemma perform_emitted task a w :
  (length (emitted (perform task a w))
   <= length (emitted w) + (if is_exit (task, a) then 1 else 0))%nat.
Proof.
  destruct a as [c|d f|x]; simpl.
  - rewrite entry_probe_canonical, trace__sys_chown_run. simpl.
    destruct (discarded task); unfold emitted; simpl; lia.
  - unfold resolve_file.
    destruct (syscalls w !! task); [|unfold emitted; simpl; lia].
    destruct (approver_rejects _); unfold emitted; simpl; lia.
  - rewrite exit_probe_canonical, sys_chown_ret_emitted, length_app.
    destruct (chown_in_flight task w); [|simpl; lia].
    destruct (IS_UNHANDLED_ERROR _); [simpl; lia|].
    destruct (is_pipefs_mount_id _); simpl; lia.
Qed.

Lemma entries_cons a h :
  entries (a :: h) = ((if is_entry a then 1 else 0) + entries h)%nat.
Proof. unfold entries. simpl. now destruct (is_entry a). Qed.

Lemma exits_cons a h :
  exits (a :: h) = ((if is_exit a then 1 else 0) + exits h)%nat.
Proof. unfold exits. simpl. now destruct (is_exit a). Qed.

Lemma captured_mono h more u g :
  captured h u g -> captured (h ++ more) u g.
Proof.
  intros (task & c & Hin & Hu & Hg). exists task, c.
  split; [|auto]. apply elem_of_app. now left.
Qed.

Lemma captured_last h task c :
  captured (h ++ [(task, act_entry c)]) (entry_user c) (entry_group c).
Proof.
  exists task, c. split; [|auto].
  apply elem_of_app. right. now apply list_elem_of_singleton.
Qed.

(** Every action keeps the provenance of records and events. *)
Lemma perform_provenance past task a w :
  provenance past w -> provenance (past ++ [(task, a)]) (perform task a w).
Proof.
  intros [Hrec Hev]. destruct a as [c|d f|x]; simpl.
  - rewrite entry_probe_canonical, trace__sys_chown_run. simpl.
    destruct (discarded task).
    { split; [intros t r Hl Ht | intros e He];
        apply captured_mono; eauto. }
    split.
    + intros t r Hl Ht. simpl in Hl.
      destruct (decide (task = t)) as [->|Hne].
      * rewrite push_lookup_own in Hl. injection Hl as <-. simpl.
        apply captured_last.
      * apply push_lookup_other in Hl; [|exact Hne].
        apply captured_mono; eauto.
    + intros e He. apply captured_mono, Hev. exact He.
  - unfold resolve_file.
    destruct (syscalls w !! task) as [r0|] eqn:Hl0; simpl.
    + destruct (approver_rejects _); simpl; split.
      * intros t r Hl Ht. simpl in Hl.
        apply lookup_delete_Some in Hl as [_ Hl].
        apply captured_mono; eauto.
      * intros e He. apply captured_mono, Hev. exact He.
      * intros t r Hl Ht. simpl in Hl.
        destruct (decide (task = t)) as [->|Hne].
        -- rewrite lookup_insert_eq in Hl. injection Hl as <-. simpl in *.
           apply captured_mono. exact (Hrec t r0 Hl0 Ht).
        -- rewrite lookup_insert_ne in Hl by exact Hne.
           apply captured_mono; eauto.
      * intros e He. apply captured_mono, Hev. exact He.
    + split; [intros t r Hl Ht | intros e He];
        apply captured_mono; eauto.
  - rewrite exit_probe_canonical. split.
    + intros t r Hl Ht. apply captured_mono.
      rewrite sys_chown_ret_run in Hl. simpl in Hl.
      destruct (chown_in_flight task w); [|eauto].
      simpl in Hl. apply lookup_delete_Some in Hl as [_ Hl]. eauto.
    + intros e. rewrite sys_chown_ret_emitted. intros He.
      apply captured_mono.
      apply elem_of_app in He as [He|He]; [now apply Hev|].
      destruct (chown_in_flight task w) as [record|] eqn:Hin;
        [|inversion He].
      apply chown_in_flight_Some in Hin as [Hl Ht].
      destruct (IS_UNHANDLED_ERROR _); [inversion He|].
      destruct (is_pipefs_mount_id _); [inversion He|].
      apply list_elem_of_singleton in He. subst e. simpl. eauto.
Qed.

Lemma run_history_provenance h : forall past w,
  provenance past w -> provenance (past ++ h) (run_history h w).
Proof.
  induction h as [|[task a] h IH]; intros past w Hinv.
  - now rewrite app_nil_r.
  - simpl. replace (past ++ (task, a) :: h)
      with ((past ++ [(task, a)]) ++ h) by now rewrite <- app_assoc.
    apply IH, perform_provenance, Hinv.
Qed.

End HistoryInvariants.

(** X11: over any history of entries, resolution steps and exits of any
    tasks, the events sent and the records in flight together grow by at
    most one per entry, and the events sent grow by at most one per
    exit; started with an empty table and nothing sent, the probes
    therefore never send more events than they saw entries, nor more
    than they saw exits. *)
Theorem events_bounded_by_calls `{helpers}
    (h : list (Z * action)) (w : world) :
  (length (emitted (run_history h w)) + size (syscalls (run_history h w))
   <= length (emitted w) + size (syscalls w) + entries h)%nat /\
  (length (emitted (run_history h w))
   <= length (emitted w) + exits h)%nat /\
  (length (emitted (run_history h {| syscalls := ∅; trace := [] |}))
   <= Nat.min (entries h) (exits h))%nat.
Proof.
  assert (Hpot : forall h w,
    (length (emitted (run_history h w)) + size (syscalls (run_history h w))
     <= length (emitted w) + size (syscalls w) + entries h)%nat).
  { clear h w. induction h as [|[task a] h IH]; intros w.
    - unfold entries. simpl. lia.
    - simpl. rewrite entries_cons.
      pose proof (IH (perform task a w)).
      pose proof (perform_potential task a w). lia. }
  assert (Hout : forall h w,
    (length (emitted (run_history h w))
     <= length (emitted w) + exits h)%nat).
  { clear h w Hpot. induction h as [|[task a] h IH]; intros w.
    - unfold exits. simpl. lia.
    - simpl. rewrite exits_cons.
      pose proof (IH (perform task a w)).
      pose proof (perform_emitted task a w). lia. }
  split; [apply Hpot|]. split; [apply Hout|].
  pose proof (Hpot h {| syscalls := ∅; trace := [] |}) as H1.
  pose proof (Hout h {| syscalls := ∅; trace := [] |}) as H2.
  unfold emitted at 2 in H1. unfold emitted at 2 in H2. simpl in H1, H2.
  rewrite map_size_empty in H1. lia.
Qed.

(** X12: started with an empty table and nothing sent, whatever the
    history of entries, resolution steps and exits of any tasks, the
    uid and gid of every event sent are the user and group some entry
    of that history was called with: the probes never report a pair
    that no call passed. *)
Theorem every_event_was_captured `{helpers}
    (h : list (Z * action)) (e : chown_event_t) :
  e ∈ emitted (run_history h {| syscalls := ∅; trace := [] |}) ->
  captured h (uid e) (gid e).
Proof.
  intros He.
  destruct (run_history_provenance h []
              {| syscalls := ∅; trace := [] |}) as [_ Hev].
  - split.
    + intros task record Hl. simpl in Hl. rewrite lookup_empty in Hl.
      discriminate.
    + intros e0 He0. inversion He0.
  - exact (Hev e He).
Qed.

(** * The properties on the concrete kernel *)

#[local] Existing Instances sample_structs sample_helpers.

(** [chown(path, 1000, 1000)] by task 5: returning 0, one event with
    return code 0; returning [-EFAULT], on a pipe, or turned away by the
    approver, none; by the discarded task 42, none. *)
Lemma one_event_per_pair_witness :
  let c := sys_chown 4096 1000 1000 in
  let x := exit_kretprobe chown {| PT_REGS_RC := 0 |} in
  let xfault := exit_kretprobe chown {| PT_REGS_RC := 2 ^ 64 - 14 |} in
  (exists e,
     emitted (syscall_pair c None x 5 empty_world)
     = emitted empty_world ++ [e] /\
     retval (syscall e) = 0) /\
  emitted (syscall_pair c None xfault 5 empty_world)
  = emitted empty_world /\
  emitted (syscall_pair c (sample_resolution 9 7) x 5 empty_world)
  = emitted empty_world /\
  emitted (syscall_pair c None x 42 empty_world) = emitted empty_world /\
  emitted (syscall_pair c (sample_resolution 13 3) x 5 empty_world)
  = emitted empty_world /\
  (discarded 5 = true \/
   rejected c None = true \/
   IS_UNHANDLED_ERROR (-14) = true \/
   exists record,
     chown_in_flight 5 (before_exit c None 5 empty_world) = Some record /\
     is_pipefs_mount_id (mount_id (file (setattr record))) = true) /\
  to_int 0 = 0 /\
  to_int (2 ^ 64 - 14) = -14.
Proof.
  intros c x xfault.
  destruct (one_event_per_pair c None x 5 empty_world)
    as (_ & _ & _ & _ & _ & Hone & _ & Hfits & _).
  destruct (one_event_per_pair c None xfault 5 empty_world)
    as (_ & Hfault & _ & _ & _ & _ & Honly & _ & Hwrap).
  destruct (one_event_per_pair c (sample_resolution 9 7) x 5 empty_world)
    as (_ & _ & Hpipe & _).
  destruct (one_event_per_pair c None x 42 empty_world)
    as (_ & _ & _ & Hdiscard & _).
  destruct (one_event_per_pair c (sample_resolution 13 3) x 5 empty_world)
    as (_ & _ & _ & _ & Hreject & _).
  assert (Hnone :
    emitted (syscall_pair c None xfault 5 empty_world)
    = emitted empty_world) by (apply Hfault; reflexivity).
  split; [apply Hone; reflexivity|].
  split; [exact Hnone|].
  split; [eapply Hpipe; reflexivity|].
  split; [apply Hdiscard; reflexivity|].
  split; [apply Hreject; reflexivity|].
  split; [exact (Honly Hnone)|].
  split.
  - apply Hfits. unfold int_range. simpl. lia.
  - apply (Hwrap (-14)); [lia | reflexivity].
Defined.

(** [fchownat(dirfd, path, 1000, 1001)] resolved to a file on mount 3:
    the event has uid 1000 and gid 1001. *)
Lemma event_ids_are_entry_arguments_witness :
  let c := sys_fchownat (-100) 4096 1000 1001 in
  let x := exit_tracepoint fchownat {| ret := 0 |} in
  let e := chown_event (sample_record EVENT_CHOWN 1 1000 1001 3) 0 5 in
  emitted (syscall_pair c (sample_resolution 9 3) x 5 empty_world)
  = emitted empty_world ++ [e] /\
  uid e = 1000 /\ gid e = 1001.
Proof.
  intros c x e. split; [reflexivity|].
  apply (event_ids_are_entry_arguments c (sample_resolution 9 3) x 5 empty_world [e]).
  - intros Hd. reflexivity.
  - reflexivity.
  - apply list_elem_of_singleton. reflexivity.
Defined.

(** A return value that fits an [int], here [-1], reaches
    [sys_chown_ret] as it is. *)
Lemma probes_fan_in_witness :
  int_range (-1) /\
  exit_probe (exit_raw_tracepoint {| raw_ret := -1 |})
  = sys_chown_ret (ctx_raw_sys_exit {| raw_ret := -1 |}) (-1).
Proof.
  assert (Hr : int_range (-1)) by (unfold int_range; lia).
  split; [exact Hr|].
  destruct probes_fan_in as (_ & _ & _ & Hexit).
  exact (Hexit (exit_raw_tracepoint {| raw_ret := -1 |}) Hr).
Defined.

(** Task 1 pushes, task 2 pushes and pops, task 1 pops its own record;
    task 3, which never pushed, pops nothing; task 1 pops a second time
    and finds nothing. *)
Lemma push_pop_exactly_once_witness :
  let r1 := sample_record EVENT_CHOWN 1 1000 1000 0 in
  let r2 := sample_record EVENT_CHOWN 1 0 0 0 in
  let others := [CorrelationTable.Push 2 r2;
                 CorrelationTable.Pop 2 EVENT_CHOWN] in
  let table' :=
    (CorrelationTable.run others (CorrelationTable.push 1 r1 ∅)).2 in
  CorrelationTable.fits others (CorrelationTable.push 1 r1 ∅) /\
  CorrelationTable.pop 1 EVENT_CHOWN table'
  = (Some r1, delete 1 table') /\
  CorrelationTable.pop 3 EVENT_CHOWN
    (CorrelationTable.run (CorrelationTable.Push 1 r1 :: others) ∅).2
  = (None,
     (CorrelationTable.run (CorrelationTable.Push 1 r1 :: others) ∅).2) /\
  CorrelationTable.pop 3 EVENT_CHOWN ({[ 1 := r1 ]} : gmap Z syscall_cache_t)
  = (None, {[ 1 := r1 ]}) /\
  CorrelationTable.pop 1 EVENT_CHOWN (delete 1 {[ 1 := r1 ]})
  = (None, delete 1 {[ 1 := r1 ]}).
Proof.
  intros r1 r2 others table'.
  assert (Hfit : CorrelationTable.fits others
                   (CorrelationTable.push 1 r1 ∅)).
  { unfold CorrelationTable.fits. vm_compute. lia. }
  destruct (push_pop_exactly_once 1 EVENT_CHOWN ∅)
    as (_ & Hpop & _ & _ & _).
  destruct (push_pop_exactly_once 3 EVENT_CHOWN {[ 1 := r1 ]})
    as (_ & _ & Hnone & Hvacant & _).
  destruct (push_pop_exactly_once 1 EVENT_CHOWN {[ 1 := r1 ]})
    as (_ & _ & _ & _ & Honce).
  split; [exact Hfit|]. split; [|split; [|split]].
  - apply (Hpop r1 others Hfit).
    repeat constructor; simpl; discriminate.
  - apply (Hnone (CorrelationTable.Push 1 r1 :: others)).
    repeat constructor; simpl; intros Hf; try discriminate Hf; exact Hf.
  - apply Hvacant. reflexivity.
  - apply (Honce r1). reflexivity.
Defined.


(** [fchown(fd, 0, 0)] by task 42, which is discarded: the world is
    unchanged and the exit hands over nothing. *)
Lemma discarded_entry_creates_nothing_witness :
  discarded 42 = true /\
  entry_probe (sys_fchown 3 0 0) 42 empty_world = (0, empty_world) /\
  emitted (syscall_pair (sys_fchown 3 0 0) None
             (exit_kretprobe fchown {| PT_REGS_RC := 0 |}) 42 empty_world)
  = emitted empty_world.
Proof.
  assert (Hd : discarded 42 = true) by reflexivity.
  destruct (discarded_entry_creates_nothing (sys_fchown 3 0 0) 42
              empty_world Hd) as (Hentry & _ & _ & Hexit).
  split; [exact Hd|]. split; [exact Hentry|].
  apply Hexit. reflexivity.
Defined.

(** [lchown] returning [-EFAULT] drops the record without a step;
    returning [-EPERM] (-1) on an ordinary mount hands over one event
    with return code -1. *)
Lemma return_value_classification_witness :
  let record := sample_record EVENT_CHOWN 1 1000 1000 3 in
  let w := {| syscalls := {[ 5 := record ]}; trace := [] |} in
  let ctx := ctx_sys_exit {| ret := -14 |} in
  chown_in_flight 5 w = Some record /\
  emitted (sys_chown_ret ctx (-14) 5 w).2 = emitted w /\
  (exists e, emitted (sys_chown_ret ctx (-1) 5 w).2 = emitted w ++ [e] /\
             retval (syscall e) = -1) /\
  retval (syscall (chown_event record (-1) 5)) = -1.
Proof.
  intros record w ctx.
  assert (Hrec : chown_in_flight 5 w = Some record) by reflexivity.
  destruct (return_value_classification ctx (-14) 5 w record Hrec)
    as (Hdrop & _ & _).
  destruct (return_value_classification ctx (-1) 5 w record Hrec)
    as (_ & Hemit & Hcode).
  split; [exact Hrec|]. split; [|split].
  - apply Hdrop. reflexivity.
  - apply Hemit; reflexivity.
  - apply (Hcode [chown_event record (-1) 5]).
    + reflexivity.
    + apply list_elem_of_singleton. reflexivity.
Defined.

(** [fchown] on a pipe (mount 7) returning 0: the slot is freed and
    nothing else happens. *)
Lemma pipefs_record_is_dropped_witness :
  let record := sample_record EVENT_CHOWN 1 1000 1000 7 in
  let w := {| syscalls := {[ 5 := record ]}; trace := [] |} in
  let ctx := ctx_regs {| PT_REGS_RC := 0 |} in
  chown_in_flight 5 w = Some record /\
  is_pipefs_mount_id (mount_id (file (setattr record))) = true /\
  trace (sys_chown_ret ctx 0 5 w).2 = [] /\
  emitted (sys_chown_ret ctx 0 5 w).2 = emitted w.
Proof.
  intros record w ctx.
  assert (Hrec : chown_in_flight 5 w = Some record) by reflexivity.
  assert (Hp : is_pipefs_mount_id (mount_id (file (setattr record))) = true)
    by reflexivity.
  destruct (pipefs_record_is_dropped ctx 0 5 w record Hrec Hp)
    as (Hrun & Hemit & _).
  split; [exact Hrec|]. split; [exact Hp|]. split; [|exact Hemit].
  rewrite Hrun. reflexivity.
Defined.

(** Two chown records that differ in their policy (1 and 2) only. *)
Lemma exit_ignores_policy_witness :
  let record1 := sample_record EVENT_CHOWN 1 1000 1000 3 in
  let record2 := sample_record EVENT_CHOWN 2 1000 1000 3 in
  let ctx := ctx_regs {| PT_REGS_RC := 0 |} in
  policy record1 <> policy record2 /\
  sys_chown_ret ctx 0 5 {| syscalls := <[5 := record1]> ∅; trace := [] |}
  = sys_chown_ret ctx 0 5 {| syscalls := <[5 := record2]> ∅; trace := [] |}.
Proof.
  intros record1 record2 ctx. split; [discriminate|].
  apply (exit_ignores_policy ctx 0 5 ∅ [] record1 record2); reflexivity.
Defined.

(** [chown] of a null path and [fchown] of descriptor -1, same user and
    group, by task 5: the same record is in flight afterwards, and the
    exit frees the slot. *)
Lemma entry_reads_ids_only_witness :
  let c1 := sys_chown 0 1000 1000 in
  let c2 := sys_fchown (-1) 1000 1000 in
  entry_probe c1 5 empty_world = entry_probe c2 5 empty_world /\
  syscalls (entry_probe c1 5 empty_world).2 !! 5
  = Some (chown_record 1000 1000) /\
  syscalls (syscall_pair c1 None
              (exit_kretprobe chown {| PT_REGS_RC := -2 |}) 5 empty_world)
    !! 5 = None.
Proof.
  intros c1 c2.
  destruct (entry_reads_ids_only c1 c2 5 empty_world eq_refl eq_refl)
    as (Hsame & Hrecord).
  destruct (Hrecord eq_refl) as (Hpushed & Hfreed).
  split; [exact Hsame|]. split; [exact Hpushed|]. apply Hfreed.
Defined.

(** Task 5 holds the record of another event type: the chown exit
    leaves it alone. *)
Lemma exit_without_record_is_noop_witness :
  let w := {| syscalls := {[ 5 := sample_record (EVENT_OTHER 3) 0 0 0 0 ]};
              trace := [] |} in
  let x := exit_tracepoint chown {| ret := 0 |} in
  chown_in_flight 5 w = None /\ exit_probe x 5 w = (0, w).
Proof.
  intros w x.
  assert (Hnone : chown_in_flight 5 w = None) by reflexivity.
  split; [exact Hnone|].
  exact (exit_without_record_is_noop x 5 w Hnone).
Defined.

(** [lchown] resolved to a file on mount 3: the event carries that
    file, and the hand-over names the tracepoint context. *)
Lemma event_carries_resolved_file_witness :
  let c := sys_lchown 4096 1000 1000 in
  let args := {| ret := 0 |} in
  let x := exit_tracepoint lchown args in
  let e := chown_event (sample_record EVENT_CHOWN 1 1000 1000 3) 0 5 in
  discarded 5 = false /\
  (event_file e = 3 /\ async (event e) = 0) /\
  (ctx_sys_exit args = exit_ctx x /\ EVENT_CHOWN = EVENT_CHOWN /\
   async (event e) = 0).
Proof.
  intros c args x e.
  assert (Hd : discarded 5 = false) by reflexivity.
  destruct (event_carries_resolved_file c (sample_resolution 9 3) x 5
              empty_world) as (Hfile & Hsend).
  split; [exact Hd|]. split.
  - apply (Hfile Hd [e] e); [reflexivity|].
    apply list_elem_of_singleton. reflexivity.
  - apply (Hsend (emit_steps (ctx_sys_exit args)
                    (sample_record EVENT_CHOWN 1 1000 1000 3) 0 5)
                 (ctx_sys_exit args) EVENT_CHOWN e); [reflexivity|].
    unfold emit_steps. do 3 (apply elem_of_cons; right).
    apply list_elem_of_singleton. reflexivity.
Defined.

(** An entry of task 5 into a table with room leaves the record of
    task 6 where it is. *)
Lemma entry_performs_no_step_witness :
  let w := {| syscalls := {[ 6 := sample_record EVENT_CHOWN 1 0 0 0 ]};
              trace := [] |} in
  let c := sys_chown16 4096 1000 1000 in
  6 <> 5 /\
  CorrelationTable.has_room 5 (syscalls w) /\
  trace (entry_probe c 5 w).2 = [] /\
  syscalls (entry_probe c 5 w).2 !! 6 = syscalls w !! 6.
Proof.
  intros w c.
  assert (Hne : 6 <> 5) by discriminate.
  assert (Hroom : CorrelationTable.has_room 5 (syscalls w)).
  { right. vm_compute. lia. }
  destruct (entry_performs_no_step c 5 w) as (_ & Htr & _ & Hframe).
  split; [exact Hne|]. split; [exact Hroom|]. split; [exact Htr|].
  apply (Hframe 6 Hne). right. exact Hroom.
Defined.

(** Two worlds that agree on the slot of task 5 and differ in the slot
    of task 6 and in the steps performed so far. *)
Lemma exit_is_local_witness :
  let record := sample_record EVENT_CHOWN 1 1000 1000 3 in
  let w := {| syscalls := {[ 5 := record ]}; trace := [] |} in
  let w2 := {| syscalls := <[ 6 := record ]> {[ 5 := record ]};
               trace := [step_fill_span_context] |} in
  let x := exit_kretprobe fchown {| PT_REGS_RC := 0 |} in
  syscalls w2 !! 5 = syscalls w !! 5 /\
  6 <> 5 /\
  syscalls (exit_probe x 5 w2).2 !! 6 = syscalls w2 !! 6 /\
  exists more,
    trace (exit_probe x 5 w).2 = trace w ++ more /\
    trace (exit_probe x 5 w2).2 = trace w2 ++ more.
Proof.
  intros record w w2 x.
  assert (Hslot : syscalls w2 !! 5 = syscalls w !! 5) by reflexivity.
  assert (Hne : 6 <> 5) by discriminate.
  destruct (exit_is_local x 5 w) as (_ & _ & Hlocal).
  destruct (exit_is_local x 5 w2) as (_ & Hframe & _).
  split; [exact Hslot|]. split; [exact Hne|].
  split; [exact (Hframe 6 Hne) | exact (Hlocal w2 Hslot)].
Defined.

(** Task 6 runs a whole [fchown] between the entry and the exit of a
    [chown] of task 5, in a table with room. *)
Lemma other_task_call_is_invisible_witness :
  let c1 := sys_chown 4096 1000 1000 in
  let x1 := exit_kretprobe chown {| PT_REGS_RC := 0 |} in
  let c2 := sys_fchown 3 0 0 in
  let x2 := exit_kretprobe fchown {| PT_REGS_RC := 0 |} in
  let w1 := before_exit c1 None 5 empty_world in
  let w2 := syscall_pair c2 None x2 6 w1 in
  5 <> 6 /\
  CorrelationTable.has_room 6 (syscalls w1) /\
  syscalls w2 !! 5 = syscalls w1 !! 5 /\
  exists more,
    trace (exit_probe x1 5 w1).2 = trace w1 ++ more /\
    trace (exit_probe x1 5 w2).2 = trace w2 ++ more.
Proof.
  intros c1 x1 c2 x2 w1 w2.
  assert (Hne : 5 <> 6) by discriminate.
  assert (Hroom : CorrelationTable.has_room 6 (syscalls w1)).
  { right. vm_compute. lia. }
  split; [exact Hne|]. split; [exact Hroom|].
  exact (other_task_call_is_invisible c1 c2 None None x1 x2 5 6
           empty_world Hne (or_intror Hroom)).
Defined.

(** [chown(path, 1, 1)] then [chown(path, 2, 2)] by task 5 without an
    exit in between: the one event has uid 2 and gid 2. *)
Lemma second_entry_replaces_first_witness :
  let c1 := sys_chown 4096 1 1 in
  let c2 := sys_chown 4096 2 2 in
  let x := exit_kretprobe chown {| PT_REGS_RC := 0 |} in
  let e := chown_event (chown_record 2 2) 0 5 in
  discarded 5 = false /\
  emitted (syscall_pair c2 None x 5 (entry_probe c1 5 empty_world).2)
  = emitted empty_world ++ [e] /\
  uid e = 2 /\ gid e = 2.
Proof.
  intros c1 c2 x e.
  assert (Hd : discarded 5 = false) by reflexivity.
  assert (Hem :
    emitted (syscall_pair c2 None x 5 (entry_probe c1 5 empty_world).2)
    = emitted empty_world ++ [e]) by reflexivity.
  destruct (second_entry_replaces_first c1 c2 None x 5 empty_world [e]
              Hd Hem) as (_ & Hids & _).
  split; [exact Hd|]. split; [exact Hem|].
  apply Hids. apply list_elem_of_singleton. reflexivity.
Defined.

(** The sample kernel and the one that discards every process agree on
    the exit of task 5. *)
Lemma exit_ignores_policy_store_witness :
  let record := sample_record EVENT_CHOWN 1 1000 1000 3 in
  let w := {| syscalls := {[ 5 := record ]}; trace := [] |} in
  let ctx := ctx_regs {| PT_REGS_RC := 0 |} in
  @discarded sample_structs sample_helpers 5 = false /\
  @discarded sample_structs sample_helpers_discarding 5 = true /\
  @sys_chown_ret sample_structs sample_helpers ctx 0 5 w
  = @sys_chown_ret sample_structs sample_helpers_discarding ctx 0 5 w.
Proof.
  intros record w ctx. split; [reflexivity|]. split; [reflexivity|].
  apply (@exit_ignores_policy_store sample_structs
           sample_helpers sample_helpers_discarding ctx 0 5 w);
    intros; reflexivity.
Defined.

(** The return register holds [-EACCES] (-13) as an unsigned 64-bit
    value: the event carries -13. *)
Lemma event_return_code_is_int_witness :
  let record := sample_record EVENT_CHOWN 1 1000 1000 3 in
  let w := {| syscalls := {[ 5 := record ]}; trace := [] |} in
  let x := exit_kretprobe chown {| PT_REGS_RC := 2 ^ 64 - 13 |} in
  let e := chown_event record (-13) 5 in
  emitted (exit_probe x 5 w).2 = emitted w ++ [e] /\
  - 2 ^ 31 <= -13 < 0 /\
  retval (syscall e) = -13.
Proof.
  intros record w x e.
  assert (Hem : emitted (exit_probe x 5 w).2 = emitted w ++ [e])
    by reflexivity.
  assert (Hcode : - 2 ^ 31 <= -13 < 0) by lia.
  assert (He : e ∈ [e]) by (apply list_elem_of_singleton; reflexivity).
  destruct (event_return_code_is_int x 5 w [e] Hem e He) as (_ & _ & Hwrap).
  split; [exact Hem|]. split; [exact Hcode|].
  apply (Hwrap (-13) Hcode). reflexivity.
Defined.

(** Task 5 enters [chown(path, 1000, 1001)], task 6 enters
    [fchown(fd, 0, 0)], task 5 leaves: the event sent has a pair that
    was passed, here the one of task 5. *)
Lemma every_event_was_captured_witness :
  let h := [ (5, act_entry (sys_chown 4096 1000 1001));
             (6, act_entry (sys_fchown 3 0 0));
             (5, act_exit (exit_kretprobe chown {| PT_REGS_RC := 0 |})) ] in
  let e := chown_event (chown_record 1000 1001) 0 5 in
  e ∈ emitted (run_history h {| syscalls := ∅; trace := [] |}) /\
  captured h 1000 1001.
Proof.
  intros h e.
  assert (He : e ∈ emitted (run_history h {| syscalls := ∅; trace := [] |})).
  { apply list_elem_of_singleton. reflexivity. }
  split; [exact He|].
  exact (every_event_was_captured h e He).
Defined.
